(** * Verification of the sampling-and-smoothing core of [eyeball_tracker.py]

    The development embeds [EyeballTracker] (history deques, the two-stage
    smoothing of [_smooth_direction], the body of [_tracking_loop] and
    [cleanup]) and proves the properties stated for it.

    Numbers.  Python's [float] / numpy's [float64] are read as the real
    numbers [R] of the Standard Library: every arithmetic operation is the
    exact one, rounding is not modelled.  [np.exp] is [exp].  The module
    [Binary64] embeds [_smooth_direction] a second time on IEEE-754
    binary64 values, with numpy's summation order and [np.exp] as a
    parameter; it is evaluated where the rounding decides a statement.

    Collaborators.  The capture device, [cv2.flip] and
    [detect_face_position] are parameters of the section [Loop].

    Further parts.  [detect_face_position] itself is embedded in the module
    [Detector], over the two cascade classifiers and with numpy's [int32]
    arithmetic written out; the script of the served page ([drawEyeball],
    [animate], [updateDirection]) is embedded in the module [Client]. *)

From Stdlib Require Import Reals Lra Lia List Bool Arith PrimFloat.
From Stdlib Require Import ZArith Permutation Sorted FloatOps SpecFloat.
Import ListNotations.

Local Open Scope R_scope.

(** ** numpy helpers used by [_smooth_direction] *)

(** [x.sum()] on a one-dimensional array. *)
Definition np_sum (l : list R) : R := fold_right Rplus 0 l.

(** [np.linspace(start, stop, num)]: [arange(0, num) * step + start] with
    [step = (stop - start) / (num - 1)].  For [num = 1] numpy yields
    [[start]]; the formula below gives the same since [INR 0 * _ = 0]. *)
Definition np_linspace (start stop : R) (num : nat) : list R :=
  map (fun i => INR i * ((stop - start) / INR (num - 1)) + start) (seq 0 num).

(** [np.exp] applied elementwise. *)
Definition np_exp (l : list R) : list R := map exp l.

(** [a / s] for an array [a] and a scalar [s]. *)
Definition np_div_scalar (l : list R) (s : R) : list R :=
  map (fun x => x / s) l.

(** [np.multiply(a, w)] on arrays of equal length. *)
Definition np_multiply (a w : list R) : list R :=
  map (fun p => fst p * snd p) (combine a w).

(** [np.average(a, weights=w)]: [np.multiply(a, w).sum() / w.sum()].
    numpy raises [ZeroDivisionError] when [w.sum()] is zero; the weights
    passed at lines 100-101 sum to one ([np_sum_ramp_weights] below), so
    that branch is not taken and is not modelled. *)
Definition np_average (a w : list R) : R :=
  np_sum (np_multiply a w) / np_sum w.

(** ** [collections.deque(maxlen=...)] *)

(** [d.append(x)] on a deque bounded by [maxlen]: the element is added on
    the right and, when the bound is exceeded, the leftmost one is dropped. *)
Definition deque_append (maxlen : nat) (d : list R) (x : R) : list R :=
  let d' := d ++ [x] in
  if (maxlen <? length d')%nat then tl d' else d'.

(** ** The tracker state *)

Definition history_size : nat := 20.
Definition smoothing_factor : R := 0.20.

Record tracker : Type := mkTracker {
  dx_history : list R;
  dy_history : list R;
  dx : R;
  dy : R;
  raw_dx : R;
  raw_dy : R
}.

(** The numeric fields set by [__init__]. *)
Definition init : tracker :=
  mkTracker [] [] 0.0 0.0 0.0 0.0.

(** Lines 97-98: the normalised exponential ramp over [n] positions. *)
Definition ramp_weights (n : nat) : list R :=
  let weights := np_exp (np_linspace 0 1 n) in
  np_div_scalar weights (np_sum weights).

(** Lines 90-101: the history update and the weighted average.  The target
    is [None] exactly when [detect_face_position] returned [(None, None)];
    it never returns one coordinate without the other. *)
Definition observe (target : option (R * R)) (s : tracker) : tracker :=
  match target with
  | Some (target_dx, target_dy) =>
      let hx := deque_append history_size (dx_history s) target_dx in
      let hy := deque_append history_size (dy_history s) target_dy in
      if (5 <=? length hx)%nat then
        let weights := ramp_weights (length hx) in
        mkTracker hx hy (dx s) (dy s)
                  (np_average hx weights) (np_average hy weights)
      else
        mkTracker hx hy (dx s) (dy s) (raw_dx s) (raw_dy s)
  | None => s
  end.

(** Lines 104-105: the interpolation towards the raw direction. *)
Definition interpolate (s : tracker) : tracker :=
  let dx' := dx s + (raw_dx s - dx s) * smoothing_factor in
  let dy' := dy s + (raw_dy s - dy s) * smoothing_factor in
  mkTracker (dx_history s) (dy_history s) dx' dy' (raw_dx s) (raw_dy s).

(** [EyeballTracker._smooth_direction(target_dx, target_dy)]. *)
Definition _smooth_direction (target : option (R * R)) (s : tracker) : tracker :=
  interpolate (observe target s).

(** [EyeballTracker.get_direction()]. *)
Definition get_direction (s : tracker) : R * R := (dx s, dy s).

(** Successive calls of [_smooth_direction], one per target, oldest first. *)
Definition smooth_all (targets : list (option (R * R))) (s : tracker) : tracker :=
  fold_left (fun st t => _smooth_direction t st) targets s.

(** ** The tracking loop and the shutdown path *)

(** Program points of the thread running [_tracking_loop]. *)
Inductive loop_pc : Type :=
| AtCheck   (* line 109: about to test [self.running] *)
| AtRead    (* line 110: about to call [self.cap.read()] *)
| AtSleep   (* line 116: in [time.sleep(0.010)] *)
| Exited.   (* the [while] has been left *)

(** Program points of the single call of [cleanup] (line 416). *)
Inductive cleanup_pc : Type :=
| NotCalled     (* before line 124 *)
| FlagCleared   (* after line 124, before line 125 *)
| Released.     (* after line 125 *)

Section Loop.

(** What the capture device delivers, and the two collaborators applied
    to it. *)
Variable frame : Type.
Variable cv2_flip : frame -> frame.
Variable detect_face_position : frame -> option (R * R).

(** Lines 110-114, one pass through the body of the [while] up to the
    sleep.  The argument is the result of [self.cap.read()]: [None] for
    [ret = False], [Some f] for [ret = True] with frame [f]. *)
Definition loop_body (rd : option frame) (s : tracker) : tracker :=
  match rd with
  | Some fr =>
      let fr := cv2_flip fr in
      _smooth_direction (detect_face_position fr) s
  | None => s
  end.

(** The passes of the loop over the successive capture results. *)
Definition run_ticks (reads : list (option frame)) (s : tracker) : tracker :=
  fold_left (fun st rd => loop_body rd st) reads s.

(** The tracker object as the two threads see it. *)
Record world : Type := mkWorld {
  core : tracker;
  running : bool;
  cap_reads : nat;          (* calls of [self.cap.read()] so far *)
  cap_releases : nat;       (* calls of [self.cap.release()] so far *)
  loop_at : loop_pc;
  cleanup_at : cleanup_pc
}.

(** After [__init__]: the flag is set and the loop thread has started. *)
Definition world0 : world := mkWorld init true 0 0 AtCheck NotCalled.

(** One step of the loop thread; [rd] is what [cap.read()] returns if the
    step is the read. *)
Definition step_loop (rd : option frame) (w : world) : world :=
  match loop_at w with
  | AtCheck =>
      mkWorld (core w) (running w) (cap_reads w) (cap_releases w)
              (if running w then AtRead else Exited) (cleanup_at w)
  | AtRead =>
      mkWorld (loop_body rd (core w)) (running w) (S (cap_reads w))
              (cap_releases w) AtSleep (cleanup_at w)
  | AtSleep =>
      mkWorld (core w) (running w) (cap_reads w) (cap_releases w)
              AtCheck (cleanup_at w)
  | Exited => w
  end.

(** One step of [cleanup]: line 124, then line 125. *)
Definition step_cleanup (w : world) : world :=
  match cleanup_at w with
  | NotCalled =>
      mkWorld (core w) false (cap_reads w) (cap_releases w)
              (loop_at w) FlagCleared
  | FlagCleared =>
      mkWorld (core w) (running w) (cap_reads w) (S (cap_releases w))
              (loop_at w) Released
  | Released => w
  end.

(** A scheduler decision: which thread moves next. *)
Inductive move : Type :=
| Loop (rd : option frame)
| Cleanup.

Definition step (w : world) (m : move) : world :=
  match m with
  | Loop rd => step_loop rd w
  | Cleanup => step_cleanup w
  end.

Definition run (sched : list move) (w : world) : world :=
  fold_left step sched w.

Definition is_loop (m : move) : bool :=
  match m with Loop _ => true | Cleanup => false end.

(** Number of loop-thread steps in a schedule. *)
Definition loop_steps (sched : list move) : nat :=
  length (filter is_loop sched).

End Loop.

Arguments Cleanup {frame}.
Arguments Loop {frame} rd.
Arguments loop_body {frame}.
Arguments run_ticks {frame}.
Arguments step_loop {frame}.
Arguments step {frame}.
Arguments run {frame}.
Arguments is_loop {frame}.
Arguments loop_steps {frame}.

(** ** The smoothing on IEEE-754 binary64 *)

#[local] Set Warnings "-inexact-float".

Module Binary64.

Definition smoothing_factor : float := 0.20%float.

(** Line 104 on machine floats: [dx += (raw_dx - dx) * smoothing_factor]. *)
Definition advance (raw_dx dx : float) : float :=
  (dx + (raw_dx - dx) * smoothing_factor)%float.


(** *** The weighted average and the whole of [_smooth_direction] on binary64 *)


(** The float of a small natural number, as [np.arange] produces it. *)
Fixpoint of_nat (n : nat) : float :=
  match n with
  | O => 0%float
  | S k => (of_nat k + 1)%float
  end.

Definition add_all (init : float) (l : list float) : float :=
  fold_left PrimFloat.add l init.

Definition add_lanes (r block : list float) : list float :=
  map (fun p => (fst p + snd p)%float) (combine r block).

Fixpoint lanes (blocks : nat) (r rest : list float) : list float :=
  match blocks with
  | O => r
  | S k => lanes k (add_lanes r (firstn 8 rest)) (skipn 8 rest)
  end.

(** [a.sum()] on a float64 array, numpy's pairwise summation: fewer than
    8 elements are added from left to right; from 8 to 128 elements, eight
    running sums take the positions [i mod 8] of the full blocks of eight,
    are combined as [((r0+r1)+(r2+r3))+((r4+r5)+(r6+r7))], and the
    remaining elements are added one by one.  A history holds at most 20
    elements. *)
Definition np_sum (a : list float) : float :=
  let n := length a in
  if (n <? 8)%nat then add_all 0%float a
  else
    let full := (n - n mod 8)%nat in
    let r := lanes (full / 8 - 1) (firstn 8 a) (skipn 8 (firstn full a)) in
    let r_ := fun i => nth i r nan in
    let res := (((r_ 0%nat + r_ 1%nat) + (r_ 2%nat + r_ 3%nat)) +
                ((r_ 4%nat + r_ 5%nat) + (r_ 6%nat + r_ 7%nat)))%float in
    add_all res (skipn full a).

(** [np.linspace(start, stop, num)] for [num >= 2]:
    [arange(0, num) * step + start] with [step = (stop - start) / (num - 1)],
    the last element then set to [stop]. *)
Definition np_linspace (start stop : float) (num : nat) : list float :=
  let step := ((stop - start) / of_nat (num - 1))%float in
  let y := map (fun i => (of_nat i * step + start)%float) (seq 0 num) in
  removelast y ++ [stop].

Definition np_multiply (a w : list float) : list float :=
  map (fun p => (fst p * snd p)%float) (combine a w).

(** [np.average(a, weights=w)]: [np.multiply(a, w).sum() / w.sum()]. *)
Definition np_average (a w : list float) : float :=
  (np_sum (np_multiply a w) / np_sum w)%float.

Definition deque_append (maxlen : nat) (d : list float) (x : float) : list float :=
  let d' := d ++ [x] in
  if (maxlen <? length d')%nat then tl d' else d'.

Record tracker : Type := mkTracker {
  dx_history : list float;
  dy_history : list float;
  dx : float;
  dy : float;
  raw_dx : float;
  raw_dy : float
}.

Definition init : tracker := mkTracker [] [] 0%float 0%float 0%float 0%float.

Section Smoothing.

(** [np.exp] on one element.  Its values are numpy's, not the source's. *)
Variable np_exp : float -> float.

(** Lines 97-98. *)
Definition ramp_weights (n : nat) : list float :=
  let weights := map np_exp (np_linspace 0%float 1%float n) in
  let total := np_sum weights in
  map (fun x => (x / total)%float) weights.

(** Lines 90-101. *)
Definition observe (target : option (float * float)) (s : tracker) : tracker :=
  match target with
  | Some (target_dx, target_dy) =>
      let hx := deque_append 20 (dx_history s) target_dx in
      let hy := deque_append 20 (dy_history s) target_dy in
      if (5 <=? length hx)%nat then
        let weights := ramp_weights (length hx) in
        mkTracker hx hy (dx s) (dy s)
                  (np_average hx weights) (np_average hy weights)
      else
        mkTracker hx hy (dx s) (dy s) (raw_dx s) (raw_dy s)
  | None => s
  end.

(** Lines 104-105. *)
Definition interpolate (s : tracker) : tracker :=
  mkTracker (dx_history s) (dy_history s)
            (advance (raw_dx s) (dx s)) (advance (raw_dy s) (dy s))
            (raw_dx s) (raw_dy s).

Definition _smooth_direction (target : option (float * float)) (s : tracker)
  : tracker :=
  interpolate (observe target s).

Definition smooth_all (targets : list (option (float * float))) (s : tracker)
  : tracker :=
  fold_left (fun st t => _smooth_direction t st) targets s.

End Smoothing.




End Binary64.

(** ** Vocabulary of the statements *)

(** *** Index sums and the weights as the specification writes them *)

(** [sum_upto n f] is the sum of [f 0 .. f (n-1)]. *)
Definition sum_upto (n : nat) (f : nat -> R) : R :=
  np_sum (map f (seq 0 n)).

(** The weight of buffer position [i] among [n]: [exp (i / (n-1))] divided
    by the sum of these over all positions. *)
Definition norm_weight (n i : nat) : R :=
  exp (INR i / INR (n - 1)) / sum_upto n (fun j => exp (INR j / INR (n - 1))).

(** *** Buffers and reachable states *)



(** The last [n] elements of [l], in order. *)
Definition lastn {A : Type} (n : nat) (l : list A) : list A :=
  skipn (length l - n) l.

(** The targets that carry a detection, in order. *)
Definition present (targets : list (option (R * R))) : list (R * R) :=
  flat_map (fun t => match t with Some p => [p] | None => [] end) targets.

(** What every reachable state satisfies: the histories run in parallel and,
    once five samples are buffered, the raw direction is the weighted
    average of the current buffers. *)
Definition consistent (s : tracker) : Prop :=
  length (dy_history s) = length (dx_history s) /\
  ((length (dx_history s) < 5)%nat -> raw_dx s = 0 /\ raw_dy s = 0) /\
  ((5 <= length (dx_history s))%nat ->
   raw_dx s = np_average (dx_history s) (ramp_weights (length (dx_history s))) /\
   raw_dy s = np_average (dy_history s) (ramp_weights (length (dx_history s)))).

(** *** Worked inputs *)

(** The state used for the worked figures: smoothed direction 0, raw
    direction 1, nothing buffered. *)
Definition unit_target : tracker := mkTracker [] [] 0 0 1.0 1.0.


(** The five detections of the worked example on the [dx] channel, with
    arbitrary [dy] values. *)
Definition ramp_samples (y1 y2 y3 y4 y5 : R) : list (option (R * R)) :=
  [Some (0.1, y1); Some (0.2, y2); Some (0.3, y3); Some (0.4, y4);
   Some (0.5, y5)].

(** A capture device with a single possible frame, and a detector that
    finds nothing in it. *)
Definition blank : Type := unit.
Definition flip_blank (f : blank) : blank := f.
Definition detect_nothing (_ : blank) : option (R * R) := None.

(** *** Shutdown *)

(** The shutdown order as the specification states it: at
    any point of any execution, once the capture has been released the
    loop has left its [while]. *)
Definition release_only_after_exit
  {frame : Type} (cv2_flip : frame -> frame)
  (detect_face_position : frame -> option (R * R))
  (sched : list (move frame)) : Prop :=
  let w := run cv2_flip detect_face_position sched world0 in
  cleanup_at w = Released -> loop_at w = Exited.

(** Loop steps still to be taken before the loop has left the [while],
    once the flag is cleared. *)
Definition steps_to_exit (pc : loop_pc) : nat :=
  match pc with AtRead => 3 | AtSleep => 2 | AtCheck => 1 | Exited => 0 end.

(** Capture reads still to come once the flag is cleared. *)
Definition reads_to_come (pc : loop_pc) : nat :=
  match pc with AtRead => 1 | _ => 0 end.

(** The flag, the release count and the position in [cleanup] move
    together. *)
Definition shutdown_inv (w : world) : Prop :=
  match cleanup_at w with
  | NotCalled => running w = true /\ cap_releases w = 0%nat
  | FlagCleared => running w = false /\ cap_releases w = 0%nat
  | Released => running w = false /\ cap_releases w = 1%nat
  end.

(** The loop about to read, flag still set, [cleanup] not yet called. *)
Definition at_read : world := mkWorld unit_target true 0 0 AtRead NotCalled.

(** *** Further vocabulary: runs, channels, scaling *)

(** The detections handed to [_smooth_direction] by the loop: one per
    successful capture read, none for a failed one. *)
Definition detections {frame : Type} (cv2_flip : frame -> frame)
  (detect_face_position : frame -> option (R * R))
  (reads : list (option frame)) : list (option (R * R)) :=
  flat_map (fun rd => match rd with
                      | Some fr => [detect_face_position (cv2_flip fr)]
                      | None => []
                      end) reads.

(** The capture results consumed by the loop thread along a schedule: the
    argument of every loop step taken at the read. *)
Fixpoint consumed {frame : Type} (cv2_flip : frame -> frame)
  (detect_face_position : frame -> option (R * R))
  (sched : list (move frame)) (w : world) : list (option frame) :=
  match sched with
  | [] => []
  | m :: rest =>
      let here :=
        match m, loop_at w with
        | Loop rd, AtRead => [rd]
        | _, _ => []
        end in
      here ++ consumed cv2_flip detect_face_position rest
                (step cv2_flip detect_face_position w m)
  end.

(** A target with its two coordinates multiplied by [a] and [b]. *)
Definition scale_target (a b : R) (t : option (R * R)) : option (R * R) :=
  match t with
  | Some (x, y) => Some (a * x, b * y)
  | None => None
  end.

(** A tracker state with every [dx] quantity multiplied by [a] and every
    [dy] quantity by [b]. *)
Definition scale_tracker (a b : R) (s : tracker) : tracker :=
  mkTracker (map (Rmult a) (dx_history s)) (map (Rmult b) (dy_history s))
            (a * dx s) (b * dy s) (a * raw_dx s) (b * raw_dy s).

(** ** [detect_face_position] (lines 45-86) *)

Module Detector.

(** A row of the array returned by [detectMultiScale]: [x, y, w, h], each
    a numpy [int32]. *)
Record rect : Type := mkRect {
  rect_x : Z;
  rect_y : Z;
  rect_w : Z;
  rect_h : Z
}.

(** The value an integer result takes when stored in an [int32]. *)
Definition wrap32 (z : Z) : Z := ((z + 2 ^ 31) mod 2 ^ 32 - 2 ^ 31)%Z.

(** [a + b], [a - b] and [a * b] on [int32] operands. *)
Definition add32 (a b : Z) : Z := wrap32 (a + b).
Definition sub32 (a b : Z) : Z := wrap32 (a - b).
Definition mul32 (a b : Z) : Z := wrap32 (a * b).

(** [a // 2]: floor division, which cannot leave the [int32] range. *)
Definition half (a : Z) : Z := (a / 2)%Z.

(** Line 58, the key [rect[2] * rect[3]]. *)
Definition area (r : rect) : Z := mul32 (rect_w r) (rect_h r).

(** Python's [max(iterable, key=...)] after its first element [best]: a
    later element replaces the current one only when its key is strictly
    greater. *)
Fixpoint max_from {A : Type} (key : A -> Z) (best : A) (l : list A) : A :=
  match l with
  | [] => best
  | a :: rest => max_from key (if (key best <? key a)%Z then a else best) rest
  end.

(** Python's [sorted(iterable, key=...)], a stable sort: elements with equal
    keys keep their order. *)
Fixpoint insert_sorted {A : Type} (key : A -> Z) (a : A) (l : list A) : list A :=
  match l with
  | [] => [a]
  | b :: rest =>
      if (key a <=? key b)%Z then a :: l else b :: insert_sorted key a rest
  end.

Definition sorted {A : Type} (key : A -> Z) (l : list A) : list A :=
  fold_right (insert_sorted key) [] l.

(** Lines 72-73: [base + (l0 + l2//2 + r0 + r2//2) // 2]. *)
Definition eye_center (base l0 l2 r0 r2 : Z) : Z :=
  add32 base (half (add32 (add32 (add32 l0 (half l2)) r0) (half r2))).

(** Lines 78-79: [base + size // 2]. *)
Definition face_center (base size : Z) : Z := add32 base (half size).

(** Lines 75-76 and 81-82: [(center - dim // 2) / (dim // 2)], an [int32]
    minus a Python integer, then true division.  For [dim < 2] the divisor
    is zero and numpy yields an infinity or a NaN; the statements below
    about values assume frames at least two pixels wide and high. *)
Definition offset (center dim : Z) : R :=
  IZR (sub32 center (dim / 2)) / IZR (dim / 2).

Section Detect.

(** The collaborators: the face cascade on the equalised grey image (lines
    47-55), the eye cascade on the part of that image cut out by a face
    rectangle (lines 62-63), and [frame.shape[:2]], height first. *)
Variable frame : Type.
Variable detect_faces : frame -> list rect.
Variable detect_eyes : frame -> rect -> list rect.
Variable frame_shape : frame -> Z * Z.

(** Line 58: [max(faces, key=lambda rect: rect[2] * rect[3])]. *)
Definition largest_face (faces : list rect) : option rect :=
  match faces with
  | [] => None
  | f :: others => Some (max_from area f others)
  end.

(** [EyeballTracker.detect_face_position(frame)]; [None] stands for the
    pair [(None, None)].  [eyes_sorted[0]] and [eyes_sorted[1]] exist
    because [len(eyes) >= 2]; the default handed to [nth] is never
    returned. *)
Definition detect_face_position (fr : frame) : option (R * R) :=
  match largest_face (detect_faces fr) with
  | Some face =>
      let x := rect_x face in
      let y := rect_y face in
      let w := rect_w face in
      let h := rect_h face in
      let eyes := detect_eyes fr face in
      let (frame_h, frame_w) := frame_shape fr in
      if (2 <=? length eyes)%nat then
        let eyes_sorted := sorted rect_x eyes in
        let left_eye := nth 0 eyes_sorted face in
        let right_eye := nth 1 eyes_sorted face in
        let eye_center_x :=
          eye_center x (rect_x left_eye) (rect_w left_eye)
                       (rect_x right_eye) (rect_w right_eye) in
        let eye_center_y :=
          eye_center y (rect_y left_eye) (rect_h left_eye)
                       (rect_y right_eye) (rect_h right_eye) in
        Some (offset eye_center_x frame_w, offset eye_center_y frame_h)
      else
        let face_center_x := face_center x w in
        let face_center_y := face_center y h in
        Some (offset face_center_x frame_w, offset face_center_y frame_h)
  | None => None
  end.

(** A rectangle with positive sides inside a [width] by [height] area. *)
Definition inside (width height : Z) (r : rect) : Prop :=
  (0 <= rect_x r /\ 0 <= rect_y r /\ 1 <= rect_w r /\ 1 <= rect_h r /\
   rect_x r + rect_w r <= width /\ rect_y r + rect_h r <= height)%Z.

(** What OpenCV delivers for a frame: at least two pixels each way (and no
    more than [2^30]), faces inside the frame, eyes inside the face region
    they were searched in. *)
Definition well_placed (fr : frame) : Prop :=
  let (frame_h, frame_w) := frame_shape fr in
  (2 <= frame_w <= 2 ^ 30)%Z /\ (2 <= frame_h <= 2 ^ 30)%Z /\
  Forall (inside frame_w frame_h) (detect_faces fr) /\
  (forall face, In face (detect_faces fr) ->
     Forall (inside (rect_w face) (rect_h face)) (detect_eyes fr face)).

End Detect.

Arguments detect_face_position {frame}.
Arguments well_placed {frame}.

End Detector.

(** *** Worked inputs for the detector *)

(** A 640 by 480 frame with two faces, the second one larger; two eyes are
    found in the larger face, none in the other. *)
Definition small_face : Detector.rect := Detector.mkRect 20 30 90 90.
Definition big_face : Detector.rect := Detector.mkRect 300 100 200 240.
Definition eye_a : Detector.rect := Detector.mkRect 110 60 40 30.
Definition eye_b : Detector.rect := Detector.mkRect 30 62 42 30.

Definition faces_of (_ : blank) : list Detector.rect := [small_face; big_face].
Definition eyes_of (_ : blank) (f : Detector.rect) : list Detector.rect :=
  if (Detector.rect_x f =? 300)%Z then [eye_a; eye_b] else [].
Definition eyes_swapped (_ : blank) (f : Detector.rect) : list Detector.rect :=
  if (Detector.rect_x f =? 300)%Z then [eye_b; eye_a] else [].
Definition vga (_ : blank) : Z * Z := (480, 640)%Z.

(** A detector that always reports the same offset. *)
Definition detect_fixed (_ : blank) : option (R * R) := Some (0.5, -0.5).

(** ** The client script of [HTML_TEMPLATE] (lines 227-388 of the source) *)

(** JavaScript numbers are read as real numbers, like Python's floats.  The
    callbacks of the page run one at a time on the event loop. *)

Module Client.

Definition pupilRadius : R := 50.
Definition clientSmoothness : R := 0.18.


(** The variables of lines 240-242. *)
Record client : Type := mkClient {
  targetDx : R;
  targetDy : R;
  currentLeftDx : R;
  currentLeftDy : R;
  currentRightDx : R;
  currentRightDy : R
}.

Definition start : client := mkClient 0 0 0 0 0 0.

(** [animate()], lines 342-348: the interpolation of both eyes. *)
Definition animate (c : client) : client :=
  mkClient (targetDx c) (targetDy c)
    (currentLeftDx c + (targetDx c - currentLeftDx c) * clientSmoothness)
    (currentLeftDy c + (targetDy c - currentLeftDy c) * clientSmoothness)
    (currentRightDx c + (targetDx c - currentRightDx c) * clientSmoothness)
    (currentRightDy c + (targetDy c - currentRightDy c) * clientSmoothness).

(** The callback of [updateDirection()], lines 369-371, on the answer
    [data] of [/direction]. *)
Definition updateDirection (data : R * R) (c : client) : client :=
  mkClient (fst data) (snd data)
    (currentLeftDx c) (currentLeftDy c) (currentRightDx c) (currentRightDy c).

(** What the event loop runs: an animation frame or an answer from the
    server. *)
Inductive event : Type :=
| Frame
| Answer (data : R * R).

Definition handle (c : client) (e : event) : client :=
  match e with
  | Frame => animate c
  | Answer data => updateDirection data c
  end.

Definition play (events : list event) (c : client) : client :=
  fold_left handle events c.

(** The answers among the events. *)
Definition answers (events : list event) : list (R * R) :=
  flat_map (fun e => match e with Answer d => [d] | Frame => [] end) events.


End Client.

(** A short session of the page. *)
Definition session : list Client.event :=
  [Client.Frame; Client.Answer (0.5, -0.25); Client.Frame; Client.Frame;
   Client.Answer (-1, 1); Client.Frame].

(** * Properties *)

(** ** Lists and deques *)

Lemma tl_skipn {A : Type} (k : nat) (l : list A) :
  tl (skipn k l) = skipn (S k) l.
Proof.
  revert l; induction k as [|k IH]; intros [|a l]; simpl; auto.
Qed.

Lemma deque_append_lastn (m : nat) (l : list R) (x : R) :
  deque_append m (lastn m l) x = lastn m (l ++ [x]).
Proof.
  unfold deque_append, lastn.
  rewrite !length_app, length_skipn; simpl length.
  destruct (Nat.ltb_spec m (length l - (length l - m) + 1)) as [H|H].
  - assert (Hm : (m <= length l)%nat) by lia.
    replace (length l + 1 - m)%nat with (S (length l - m)) by lia.
    rewrite <- tl_skipn, skipn_app.
    replace (length l - m - length l)%nat with 0%nat by lia.
    simpl skipn at 2.
    destruct (skipn (length l - m) l) eqn:E; simpl.
    + apply (f_equal (@length R)) in E. rewrite length_skipn in E.
      simpl in E.
      destruct m as [|m]; [reflexivity | lia].
    + reflexivity.
  - replace (length l - m)%nat with 0%nat by lia.
    replace (length l + 1 - m)%nat with 0%nat by lia.
    reflexivity.
Qed.

Lemma length_lastn {A : Type} (n : nat) (l : list A) :
  length (lastn n l) = Nat.min n (length l).
Proof. unfold lastn. rewrite length_skipn. lia. Qed.

Lemma length_deque_append (m : nat) (d : list R) (x : R) :
  (length d <= m)%nat -> (length (deque_append m d x) <= m)%nat.
Proof.
  intros H. unfold deque_append.
  destruct (Nat.ltb_spec m (length (d ++ [x]))) as [H1|H1]; [|exact H1].
  rewrite length_app in H1. simpl in H1.
  destruct d as [|a d]; simpl in *; [lia|].
  rewrite length_app; simpl; lia.
Qed.

Lemma length_deque_append_eq (m : nat) (d e : list R) (x y : R) :
  length d = length e ->
  length (deque_append m d x) = length (deque_append m e y).
Proof.
  intros H. unfold deque_append. rewrite !length_app, H. simpl.
  destruct (m <? length e + 1)%nat.
  - destruct d, e; simpl in *; try discriminate; auto.
    rewrite !length_app. simpl. lia.
  - rewrite !length_app, H. reflexivity.
Qed.

Lemma smooth_all_snoc (ts : list (option (R * R))) (t : option (R * R)) (s : tracker) :
  smooth_all (ts ++ [t]) s = _smooth_direction t (smooth_all ts s).
Proof. unfold smooth_all. rewrite fold_left_app. reflexivity. Qed.

Lemma present_snoc (ts : list (option (R * R))) (t : option (R * R)) :
  present (ts ++ [t]) =
  present ts ++ match t with Some p => [p] | None => [] end.
Proof. unfold present. rewrite flat_map_app. simpl. rewrite app_nil_r. reflexivity. Qed.

(** The histories are untouched by the interpolation. *)
Lemma histories_smooth (t : option (R * R)) (s : tracker) :
  dx_history (_smooth_direction t s) = dx_history (observe t s) /\
  dy_history (_smooth_direction t s) = dy_history (observe t s).
Proof. split; reflexivity. Qed.

Lemma histories_observe_some (x y : R) (s : tracker) :
  dx_history (observe (Some (x, y)) s) = deque_append history_size (dx_history s) x /\
  dy_history (observe (Some (x, y)) s) = deque_append history_size (dy_history s) y.
Proof.
  unfold observe.
  destruct (5 <=? length (deque_append history_size (dx_history s) x))%nat;
    split; reflexivity.
Qed.

(** The two histories of a reachable state are the last [history_size]
    detections, oldest first. *)
Lemma histories_window (ts : list (option (R * R))) :
  dx_history (smooth_all ts init) = lastn history_size (map fst (present ts)) /\
  dy_history (smooth_all ts init) = lastn history_size (map snd (present ts)).
Proof.
  induction ts as [|t ts IH] using rev_ind.
  - split; reflexivity.
  - rewrite smooth_all_snoc, present_snoc, !map_app.
    destruct IH as [IHx IHy].
    destruct (histories_smooth t (smooth_all ts init)) as [-> ->].
    destruct t as [[x y]|].
    + destruct (histories_observe_some x y (smooth_all ts init)) as [-> ->].
      rewrite IHx, IHy. simpl map.
      split; apply deque_append_lastn.
    + simpl. rewrite !app_nil_r. auto.
Qed.

(** ** Sums, weights and averages *)

Lemma np_sum_app (l1 l2 : list R) : np_sum (l1 ++ l2) = np_sum l1 + np_sum l2.
Proof. induction l1 as [|a l1 IH]; simpl; [lra | rewrite IH; lra]. Qed.

Lemma np_sum_scale (c : R) (l : list R) :
  np_sum (map (fun x => x * c) l) = np_sum l * c.
Proof. induction l as [|a l IH]; simpl; [lra | rewrite IH; lra]. Qed.

Lemma np_sum_pos (l : list R) :
  l <> [] -> Forall (fun x => 0 < x) l -> 0 < np_sum l.
Proof.
  intros Hne H. induction H as [|a l Ha Hl IH]; [congruence|].
  simpl. destruct l as [|b l]; simpl in *; [lra|].
  assert (0 < b + np_sum l) by (apply IH; discriminate). lra.
Qed.

(** The pointwise product against an indexed family of weights, as an
    index sum over the buffer positions. *)
Lemma np_sum_multiply_indexed (g : nat -> R) (a : list R) (k : nat) :
  np_sum (np_multiply a (map g (seq k (length a)))) =
  sum_upto (length a) (fun i => g (k + i)%nat * nth i a 0).
Proof.
  unfold sum_upto, np_multiply. revert k.
  induction a as [|x a IH]; intros k; [reflexivity|].
  simpl length. simpl seq. simpl.
  rewrite IH, Nat.add_0_r, <- seq_shift, map_map.
  f_equal; [lra|]. f_equal.
  apply map_ext. intros i. rewrite Nat.add_succ_r. reflexivity.
Qed.

(** A weighted sum with nonnegative weights lies between the bounds of the
    samples, each multiplied by the sum of the weights. *)
Lemma weighted_sum_bounds (lo hi : R) (a w : list R) :
  Forall (fun x => lo <= x <= hi) a ->
  Forall (fun x => 0 <= x) w ->
  length a = length w ->
  lo * np_sum w <= np_sum (np_multiply a w) <= hi * np_sum w.
Proof.
  unfold np_multiply. intros Ha. revert w.
  induction Ha as [|x a Hx Ha IH]; intros w Hw Hlen.
  - destruct w; [simpl; lra | discriminate].
  - destruct w as [|y w]; [discriminate|].
    inversion Hw as [|? ? Hy Hw']; subst.
    injection Hlen as Hlen.
    specialize (IH w Hw' Hlen). simpl in *. nra.
Qed.




(** The unnormalised ramp [exp (i / (n-1))], [i = 0 .. n-1]. *)
Lemma ramp_unnormalised (n : nat) :
  np_exp (np_linspace 0 1 n) = map (fun i => exp (INR i / INR (n - 1))) (seq 0 n).
Proof.
  unfold np_exp, np_linspace. rewrite map_map.
  apply map_ext. intros i. f_equal. unfold Rdiv. ring.
Qed.

Lemma ramp_weights_indexed (n : nat) :
  ramp_weights n = map (norm_weight n) (seq 0 n).
Proof.
  unfold ramp_weights, np_div_scalar. rewrite ramp_unnormalised, map_map.
  reflexivity.
Qed.

Lemma length_ramp_weights (n : nat) : length (ramp_weights n) = n.
Proof. rewrite ramp_weights_indexed, length_map, length_seq. reflexivity. Qed.

Lemma ramp_total_pos (n : nat) :
  (1 <= n)%nat -> 0 < sum_upto n (fun j => exp (INR j / INR (n - 1))).
Proof.
  intros Hn. unfold sum_upto. apply np_sum_pos.
  - destruct n; [lia | simpl; discriminate].
  - rewrite Forall_forall. intros x Hx.
    apply in_map_iff in Hx. destruct Hx as [i [<- _]]. apply exp_pos.
Qed.

Lemma norm_weight_pos (n i : nat) : (1 <= n)%nat -> 0 < norm_weight n i.
Proof.
  intros Hn. unfold norm_weight.
  apply Rdiv_lt_0_compat; [apply exp_pos | apply ramp_total_pos; exact Hn].
Qed.

(** [weights / weights.sum()] sums to one. *)
Lemma np_sum_ramp_weights (n : nat) : (1 <= n)%nat -> np_sum (ramp_weights n) = 1.
Proof.
  intros Hn. pose proof (ramp_total_pos n Hn) as Hpos.
  unfold ramp_weights, np_div_scalar. rewrite ramp_unnormalised.
  unfold Rdiv at 1. rewrite np_sum_scale.
  fold (sum_upto n (fun i => exp (INR i / INR (n - 1)))).
  field. lra.
Qed.


(** [np.average] against the ramp is the index sum of weight times sample. *)
Lemma np_average_ramp (h : list R) :
  (1 <= length h)%nat ->
  np_average h (ramp_weights (length h)) =
  sum_upto (length h) (fun i => norm_weight (length h) i * nth i h 0).
Proof.
  intros Hn. unfold np_average.
  rewrite np_sum_ramp_weights by exact Hn.
  rewrite ramp_weights_indexed, np_sum_multiply_indexed.
  unfold Rdiv. rewrite Rinv_1, Rmult_1_r. reflexivity.
Qed.

(** ... and lies between the smallest and the largest sample. *)
Lemma np_average_ramp_bounds (lo hi : R) (h : list R) :
  (1 <= length h)%nat ->
  Forall (fun x => lo <= x <= hi) h ->
  lo <= np_average h (ramp_weights (length h)) <= hi.
Proof.
  intros Hn Hh. unfold np_average.
  pose proof (np_sum_ramp_weights _ Hn) as Hsum.
  assert (Hw : Forall (fun x => 0 <= x) (ramp_weights (length h))).
  { rewrite ramp_weights_indexed, Forall_forall. intros x Hx.
    apply in_map_iff in Hx. destruct Hx as [i [<- _]].
    left. apply norm_weight_pos; exact Hn. }
  pose proof (weighted_sum_bounds lo hi h _ Hh Hw
                (eq_sym (length_ramp_weights (length h)))) as Hb.
  rewrite Hsum in *. unfold Rdiv. rewrite Rinv_1. lra.
Qed.

(** ** One call of [_smooth_direction], field by field *)

Lemma observe_smoothed (t : option (R * R)) (s : tracker) :
  dx (observe t s) = dx s /\ dy (observe t s) = dy s.
Proof.
  destruct t as [[x y]|]; unfold observe; [|auto].
  destruct (5 <=? length (deque_append history_size (dx_history s) x))%nat;
    split; reflexivity.
Qed.

Lemma smooth_fields (t : option (R * R)) (s : tracker) :
  let o := observe t s in
  let s' := _smooth_direction t s in
  dx_history s' = dx_history o /\ dy_history s' = dy_history o /\
  raw_dx s' = raw_dx o /\ raw_dy s' = raw_dy o /\
  dx s' = dx s + (raw_dx o - dx s) * smoothing_factor /\
  dy s' = dy s + (raw_dy o - dy s) * smoothing_factor.
Proof.
  simpl. destruct (observe_smoothed t s) as [Hx Hy].
  unfold _smooth_direction, interpolate; simpl.
  rewrite Hx, Hy. repeat split; reflexivity.
Qed.

Lemma observe_raw (x y : R) (s : tracker) :
  let o := observe (Some (x, y)) s in
  let n := length (dx_history o) in
  ((n < 5)%nat -> raw_dx o = raw_dx s /\ raw_dy o = raw_dy s) /\
  ((5 <= n)%nat ->
   raw_dx o = np_average (dx_history o) (ramp_weights n) /\
   raw_dy o = np_average (dy_history o) (ramp_weights n)).
Proof.
  cbv zeta. unfold observe.
  remember (deque_append history_size (dx_history s) x) as hx.
  remember (deque_append history_size (dy_history s) y) as hy.
  destruct (Nat.leb_spec 5 (length hx)) as [H|H];
    cbn [dx_history dy_history raw_dx raw_dy];
    split; intros Hn; try lia; split; reflexivity.
Qed.

Lemma length_deque_append_grows (m : nat) (d : list R) (x : R) :
  (length d <= m)%nat -> length (deque_append m d x) = Nat.min m (length d + 1).
Proof.
  intros H. unfold deque_append.
  destruct (Nat.ltb_spec m (length (d ++ [x]))) as [H1|H1];
    rewrite length_app in H1; simpl in H1.
  - destruct d as [|a d]; simpl in *; [lia|].
    rewrite length_app; simpl; lia.
  - rewrite length_app; simpl; lia.
Qed.

Lemma length_history_le (ts : list (option (R * R))) :
  (length (dx_history (smooth_all ts init)) <= history_size)%nat /\
  (length (dy_history (smooth_all ts init)) <= history_size)%nat.
Proof.
  destruct (histories_window ts) as [-> ->].
  rewrite !length_lastn. lia.
Qed.

Lemma consistent_init : consistent init.
Proof.
  unfold consistent, init; simpl. repeat split; try lra; lia.
Qed.

Lemma consistent_step (t : option (R * R)) (s : tracker) :
  (length (dx_history s) <= history_size)%nat ->
  consistent s -> consistent (_smooth_direction t s).
Proof.
  intros Hle (Hlen & Hlt & Hge).
  destruct (smooth_fields t s) as (Hhx & Hhy & Hrx & Hry & _).
  unfold consistent. rewrite Hhx, Hhy, Hrx, Hry.
  destruct t as [[x y]|]; [|simpl; auto].
  destruct (histories_observe_some x y s) as [Ex Ey].
  destruct (observe_raw x y s) as [Olt Oge].
  split; [|split].
  - rewrite Ex, Ey. apply length_deque_append_eq. exact Hlen.
  - intros Hn. destruct (Olt Hn) as [-> ->]. apply Hlt.
    rewrite Ex, length_deque_append_grows in Hn by exact Hle.
    unfold history_size in *. lia.
  - exact Oge.
Qed.

Lemma reachable_consistent (ts : list (option (R * R))) :
  consistent (smooth_all ts init).
Proof.
  induction ts as [|t ts IH] using rev_ind; [apply consistent_init|].
  rewrite smooth_all_snoc. apply consistent_step; [|exact IH].
  apply length_history_le.
Qed.

(** ** The weighted average (lines 95-101) *)



(** ** The bounded history (lines 27-29 and 90-93) *)

(** C6.  After any sequence of calls from the initial state both histories
    hold at most 20 elements; they are exactly the last 20 detections in
    arrival order; a further detection is appended on the right, after the
    oldest element has been dropped when the buffer is full; an absent
    detection leaves both histories as they are. *)
Theorem history_bounded_fifo (ts : list (option (R * R))) :
  let s := smooth_all ts init in
  (length (dx_history s) <= 20)%nat /\
  (length (dy_history s) <= 20)%nat /\
  dx_history s = lastn 20 (map fst (present ts)) /\
  dy_history s = lastn 20 (map snd (present ts)) /\
  (forall x y,
      dx_history (_smooth_direction (Some (x, y)) s) =
        (if (length (dx_history s) <? 20)%nat
         then dx_history s ++ [x] else tl (dx_history s) ++ [x]) /\
      dy_history (_smooth_direction (Some (x, y)) s) =
        (if (length (dy_history s) <? 20)%nat
         then dy_history s ++ [y] else tl (dy_history s) ++ [y])) /\
  dx_history (_smooth_direction None s) = dx_history s /\
  dy_history (_smooth_direction None s) = dy_history s.
Proof.
  cbv zeta.
  destruct (length_history_le ts) as [Lx Ly].
  destruct (histories_window ts) as [Wx Wy].
  unfold history_size in *.
  repeat split; auto.
  - destruct (histories_smooth (Some (x, y)) (smooth_all ts init)) as [-> _].
    destruct (histories_observe_some x y (smooth_all ts init)) as [-> _].
    unfold deque_append, history_size. rewrite length_app. simpl length.
    destruct (Nat.ltb_spec 20 (length (dx_history (smooth_all ts init)) + 1));
      destruct (Nat.ltb_spec (length (dx_history (smooth_all ts init))) 20);
      try lia; [|reflexivity].
    destruct (dx_history (smooth_all ts init)); simpl in *; [lia | reflexivity].
  - destruct (histories_smooth (Some (x, y)) (smooth_all ts init)) as [_ ->].
    destruct (histories_observe_some x y (smooth_all ts init)) as [_ ->].
    unfold deque_append, history_size. rewrite length_app. simpl length.
    destruct (Nat.ltb_spec 20 (length (dy_history (smooth_all ts init)) + 1));
      destruct (Nat.ltb_spec (length (dy_history (smooth_all ts init))) 20);
      try lia; [|reflexivity].
    destruct (dy_history (smooth_all ts init)); simpl in *; [lia | reflexivity].
Qed.

(** ** The interpolation step (lines 103-105) *)

(** C5.  If the raw direction equals the smoothed one, lines 104-105 leave
    the smoothed one as it is, component by component; in particular a call
    of [_smooth_direction] whose raw direction afterwards equals the
    smoothed one before does not move it. *)
Theorem advance_fixed_point (s : tracker) :
  (raw_dx s = dx s -> dx (interpolate s) = dx s) /\
  (raw_dy s = dy s -> dy (interpolate s) = dy s) /\
  (forall t, raw_dx (_smooth_direction t s) = dx s ->
             dx (_smooth_direction t s) = dx s) /\
  (forall t, raw_dy (_smooth_direction t s) = dy s ->
             dy (_smooth_direction t s) = dy s).
Proof.
  split; [|split; [|split]].
  - intros H. unfold interpolate; simpl. rewrite H. ring.
  - intros H. unfold interpolate; simpl. rewrite H. ring.
  - intros t H. destruct (smooth_fields t s) as (_ & _ & Hr & _ & Hd & _).
    rewrite Hd, <- Hr, H. ring.
  - intros t H. destruct (smooth_fields t s) as (_ & _ & _ & Hr & _ & Hd).
    rewrite Hd, <- Hr, H. ring.
Qed.

Lemma advance_fixed_point_witness :
  let s := mkTracker [] [] 0.5 0.25 0.5 0.25 in
  dx (interpolate s) = dx s /\ dy (interpolate s) = dy s.
Proof.
  split.
  - apply (proj1 (advance_fixed_point (mkTracker [] [] 0.5 0.25 0.5 0.25))).
    reflexivity.
  - apply (proj1 (proj2 (advance_fixed_point (mkTracker [] [] 0.5 0.25 0.5 0.25)))).
    reflexivity.
Defined.






(** ** Boundedness of the smoothed and raw directions *)

Lemma Forall_lastn {A : Type} (P : A -> Prop) (n : nat) (l : list A) :
  Forall P l -> Forall P (lastn n l).
Proof.
  intros H. rewrite Forall_forall in *. intros x Hx.
  apply H. unfold lastn in Hx.
  rewrite <- (firstn_skipn (length l - n) l). apply in_or_app. right. exact Hx.
Qed.




(** ** The bias towards recent samples *)

Lemma exp_ramp5_increasing :
  exp (INR 0 / INR 4) < exp (INR 1 / INR 4) /\
  exp (INR 1 / INR 4) < exp (INR 2 / INR 4) /\
  exp (INR 2 / INR 4) < exp (INR 3 / INR 4) /\
  exp (INR 3 / INR 4) < exp (INR 4 / INR 4).
Proof.
  repeat split; apply exp_increasing; simpl; lra.
Qed.

(** C9.  After the five detections 0.1, 0.2, 0.3, 0.4, 0.5 (in this order)
    from the initial state the history holds exactly these, the weighted
    average has been taken, and it is strictly above their plain mean
    0.3. *)
Theorem weighting_bias (y1 y2 y3 y4 y5 : R) :
  let s := smooth_all (ramp_samples y1 y2 y3 y4 y5) init in
  dx_history s = [0.1; 0.2; 0.3; 0.4; 0.5] /\
  (0.1 + 0.2 + 0.3 + 0.4 + 0.5) / 5 = 0.3 /\
  raw_dx s = np_average [0.1; 0.2; 0.3; 0.4; 0.5] (ramp_weights 5) /\
  0.3 < raw_dx s.
Proof.
  cbv zeta.
  pose proof (reachable_consistent (ramp_samples y1 y2 y3 y4 y5)) as (_ & _ & Hge).
  destruct (histories_window (ramp_samples y1 y2 y3 y4 y5)) as [Wx _].
  change (lastn history_size (map fst (present (ramp_samples y1 y2 y3 y4 y5))))
    with [0.1; 0.2; 0.3; 0.4; 0.5] in Wx.
  rewrite Wx in *. simpl length in Hge.
  destruct (Hge (le_n 5)) as [Hr _].
  split; [reflexivity|]. split; [lra|]. split; [exact Hr|].
  rewrite Hr.
  pose proof (np_average_ramp [0.1; 0.2; 0.3; 0.4; 0.5] ltac:(simpl; lia)) as Ha.
  simpl length in Ha. rewrite Ha. unfold norm_weight.
  pose proof (ramp_total_pos 5 ltac:(lia)) as Hpos.
  destruct exp_ramp5_increasing as (H01 & H12 & H23 & H34).
  cbv [sum_upto seq map np_sum fold_right nth Nat.sub] in *.
  set (e0 := exp (INR 0 / INR 4)) in *.
  set (e1 := exp (INR 1 / INR 4)) in *.
  set (e2 := exp (INR 2 / INR 4)) in *.
  set (e3 := exp (INR 3 / INR 4)) in *.
  set (e4 := exp (INR 4 / INR 4)) in *.
  set (E := e0 + (e1 + (e2 + (e3 + (e4 + 0))))) in *.
  replace (e0 / E * 0.1 + (e1 / E * 0.2 + (e2 / E * 0.3 + (e3 / E * 0.4 + (e4 / E * 0.5 + 0)))))
    with ((e0 * 0.1 + e1 * 0.2 + e2 * 0.3 + e3 * 0.4 + e4 * 0.5) / E)
    by (field; lra).
  apply (Rmult_lt_reg_r E); [exact Hpos|].
  unfold Rdiv. rewrite Rmult_assoc, Rinv_l, Rmult_1_r by lra.
  unfold E. lra.
Qed.

(** ** The tracking loop: ticks without a frame or without a detection *)

Section LoopProperties.

Variable frame : Type.
Variable cv2_flip : frame -> frame.
Variable detect_face_position : frame -> option (R * R).

(** C8.  In a tick whose capture read succeeds and whose detection is
    absent, the histories and the raw direction are unchanged and the
    smoothed direction moves by [dx += (raw_dx - dx) * 0.20],
    [dy += (raw_dy - dy) * 0.20]. *)
Theorem absent_detection_advances (f : frame) (s : tracker) :
  detect_face_position (cv2_flip f) = None ->
  let s' := loop_body cv2_flip detect_face_position (Some f) s in
  s' = _smooth_direction None s /\
  dx_history s' = dx_history s /\ dy_history s' = dy_history s /\
  raw_dx s' = raw_dx s /\ raw_dy s' = raw_dy s /\
  dx s' = dx s + (raw_dx s - dx s) * 0.20 /\
  dy s' = dy s + (raw_dy s - dy s) * 0.20.
Proof.
  intros H. cbv zeta. unfold loop_body. rewrite H.
  repeat split; reflexivity.
Qed.

Lemma run_ticks_app (l1 l2 : list (option frame)) (s : tracker) :
  run_ticks cv2_flip detect_face_position (l1 ++ l2) s =
  run_ticks cv2_flip detect_face_position l2
    (run_ticks cv2_flip detect_face_position l1 s).
Proof. unfold run_ticks. apply fold_left_app. Qed.

(** C7.  A tick whose capture read fails returns the tracker state it was
    given: histories, raw and smoothed direction are the same; the loop
    goes on to the sleep and to the next test of the flag, and the
    following ticks run as if the failed one had not taken place. *)
Theorem failed_read_skips_tick :
  (forall s, loop_body cv2_flip detect_face_position None s = s) /\
  (forall pre post s,
      run_ticks cv2_flip detect_face_position (pre ++ None :: post) s =
      run_ticks cv2_flip detect_face_position (pre ++ post) s) /\
  (forall w, loop_at w = AtRead ->
      let w' := step_loop cv2_flip detect_face_position None w in
      core w' = core w /\ running w' = running w /\
      loop_at w' = AtSleep /\
      (forall rd,
          loop_at (step_loop cv2_flip detect_face_position rd w') = AtCheck) /\
      (running w = true ->
       forall rd rd',
         loop_at (step_loop cv2_flip detect_face_position rd'
                    (step_loop cv2_flip detect_face_position rd w')) = AtRead)).
Proof.
  split; [reflexivity|]. split.
  - intros pre post s. rewrite !run_ticks_app. reflexivity.
  - intros w Hw. cbv zeta. unfold step_loop. rewrite Hw. simpl.
    repeat split. intros Hr rd rd'. rewrite Hr. reflexivity.
Qed.

(** *** Shutdown *)

Lemma run_cons (m : move frame) (sched : list (move frame)) (w : world) :
  run cv2_flip detect_face_position (m :: sched) w =
  run cv2_flip detect_face_position sched
    (step cv2_flip detect_face_position w m).
Proof. reflexivity. Qed.

Lemma shutdown_inv_step (w : world) (m : move frame) :
  shutdown_inv w -> shutdown_inv (step cv2_flip detect_face_position w m).
Proof.
  unfold shutdown_inv, step, step_loop, step_cleanup.
  destruct w as [c r rd rl lp cp].
  destruct m as [x|]; destruct lp, cp; simpl; intuition congruence.
Qed.

Lemma shutdown_inv_run (sched : list (move frame)) (w : world) :
  shutdown_inv w -> shutdown_inv (run cv2_flip detect_face_position sched w).
Proof.
  revert w. induction sched as [|m sched IH]; intros w H; [exact H|].
  rewrite run_cons. apply IH. apply shutdown_inv_step. exact H.
Qed.

(** Once the flag is cleared it stays cleared, every loop step brings the
    loop nearer to its exit, and the capture reads done and still to come
    add up to the same number. *)
Lemma stopped_step (w : world) (m : move frame) :
  running w = false ->
  let w' := step cv2_flip detect_face_position w m in
  running w' = false /\
  (steps_to_exit (loop_at w') + (if is_loop m then 1 else 0)
   <= Nat.max 1 (steps_to_exit (loop_at w)))%nat /\
  (steps_to_exit (loop_at w') <= steps_to_exit (loop_at w))%nat /\
  (cap_reads w' + reads_to_come (loop_at w')
   = cap_reads w + reads_to_come (loop_at w))%nat.
Proof.
  intros Hr. destruct w as [c r rd rl lp cp]. simpl in Hr. subst r.
  unfold step, step_loop, step_cleanup.
  destruct m as [x|]; destruct lp, cp; simpl; repeat split; lia.
Qed.

Lemma stopped_run (sched : list (move frame)) (w : world) :
  running w = false ->
  let w' := run cv2_flip detect_face_position sched w in
  running w' = false /\
  (steps_to_exit (loop_at w') + loop_steps sched
   <= Nat.max (loop_steps sched) (steps_to_exit (loop_at w)))%nat /\
  (cap_reads w' + reads_to_come (loop_at w')
   = cap_reads w + reads_to_come (loop_at w))%nat.
Proof.
  revert w. induction sched as [|m sched IH]; intros w Hr.
  - simpl. unfold loop_steps. simpl. repeat split; auto; lia.
  - cbv zeta. rewrite run_cons.
    destruct (stopped_step w m Hr) as (Hr' & Hd & Hd' & Hc).
    destruct (IH _ Hr') as (Hr'' & He & Hc').
    unfold loop_steps in *. simpl filter.
    destruct m as [x|]; simpl is_loop in *; cbv iota in *; simpl length;
      repeat split; auto; lia.
Qed.

End LoopProperties.

Lemma absent_detection_advances_witness :
  detect_nothing (flip_blank tt) = None /\
  dx (loop_body flip_blank detect_nothing (Some tt) unit_target)
  = dx unit_target + (raw_dx unit_target - dx unit_target) * 0.20.
Proof.
  split; [reflexivity|].
  apply (absent_detection_advances blank flip_blank detect_nothing tt
           unit_target eq_refl).
Defined.

Lemma failed_read_skips_tick_witness :
  loop_at at_read = AtRead /\
  core (step_loop flip_blank detect_nothing None at_read) = core at_read.
Proof.
  split; [reflexivity|].
  apply (proj2 (proj2 (failed_read_skips_tick blank flip_blank detect_nothing))
           at_read eq_refl).
Defined.

(** C2, as amended.  In every execution [cleanup] clears the flag and then
    calls [release] on the capture, once: at any point at most one release
    has happened, exactly one as soon as [cleanup] has returned, and none
    while the flag is still set.  [cleanup] does not wait for the loop.
    Once the flag is cleared it stays cleared, the loop reads the capture
    at most once more, and after three further steps of its own (the read
    in progress, the sleep, the test of the flag) it has left the
    [while]. *)
Theorem shutdown_release_once
  (frame : Type) (cv2_flip : frame -> frame)
  (detect_face_position : frame -> option (R * R))
  (sched : list (move frame)) :
  let w := run cv2_flip detect_face_position sched world0 in
  (cap_releases w <= 1)%nat /\
  (cap_releases w = 1%nat <-> cleanup_at w = Released) /\
  (cap_releases w = 1%nat -> running w = false) /\
  (running w = false ->
   forall sched',
     let w' := run cv2_flip detect_face_position sched' w in
     running w' = false /\
     (cap_reads w' <= cap_reads w + 1)%nat /\
     ((3 <= loop_steps sched')%nat -> loop_at w' = Exited)).
Proof.
  cbv zeta.
  assert (Hinv : shutdown_inv (run cv2_flip detect_face_position sched world0)).
  { apply shutdown_inv_run. unfold shutdown_inv; simpl. auto. }
  set (w := run cv2_flip detect_face_position sched world0) in *.
  unfold shutdown_inv in Hinv.
  split; [|split; [|split]].
  - destruct (cleanup_at w); lia.
  - destruct (cleanup_at w); split; intros H; try reflexivity;
      try discriminate; lia.
  - destruct (cleanup_at w); intros H; try tauto; lia.
  - intros Hr sched'.
    destruct (stopped_run frame cv2_flip detect_face_position sched' w Hr)
      as (Hr' & Hd & Hc).
    split; [exact Hr'|]. split.
    + assert (reads_to_come (loop_at w) <= 1)%nat
        by (destruct (loop_at w); simpl; lia).
      lia.
    + intros H3.
      assert (steps_to_exit (loop_at w) <= 3)%nat
        by (destruct (loop_at w); simpl; lia).
      destruct (loop_at (run cv2_flip detect_face_position sched' w));
        simpl in Hd; try reflexivity; lia.
Qed.

Lemma shutdown_release_once_witness :
  let w := run flip_blank detect_nothing [Loop None; Cleanup] world0 in
  let w' := run flip_blank detect_nothing
              [Loop None; Cleanup; Loop None; Loop None] w in
  running w = false /\ loop_at w = AtRead /\
  running w' = false /\ (cap_reads w' <= cap_reads w + 1)%nat /\
  loop_at w' = Exited.
Proof.
  cbv zeta.
  split; [reflexivity|]. split; [reflexivity|].
  pose proof (proj2 (proj2 (proj2
    (shutdown_release_once blank flip_blank detect_nothing
       [Loop None; Cleanup]))) eq_refl
    [Loop None; Cleanup; Loop None; Loop None]) as (H1 & H2 & H3).
  split; [exact H1|]. split; [exact H2|].
  apply H3. unfold loop_steps. simpl. lia.
Defined.

(** The shutdown order as the specification states it does not hold: the
    loop tests the flag, reads a frame and goes to sleep; [cleanup] then
    runs to its end and the capture is released while the loop is still
    inside its [while]. *)
Lemma release_before_loop_exit :
  ~ release_only_after_exit flip_blank detect_nothing
      [Loop None; Loop (Some tt); Cleanup; Cleanup].
Proof.
  unfold release_only_after_exit. simpl. intros H.
  specialize (H eq_refl). discriminate H.
Qed.


(** * Further properties of the smoothing *)

(** ** Warm-up *)

Lemma length_present_snoc (ts : list (option (R * R))) (t : option (R * R)) :
  (length (present ts) <= length (present (ts ++ [t])))%nat.
Proof. rewrite present_snoc, length_app. lia. Qed.

(** X1.  As long as fewer than five detections have been fed since the
    start, whatever the number of ticks without detection in between, the
    raw direction is still [(0, 0)] and [get_direction] returns
    [(0, 0)]. *)
Theorem warm_up_direction_zero (ts : list (option (R * R))) :
  (length (present ts) < 5)%nat ->
  let s := smooth_all ts init in
  raw_dx s = 0 /\ raw_dy s = 0 /\ get_direction s = (0, 0).
Proof.
  cbv zeta. unfold get_direction.
  induction ts as [|t ts IH] using rev_ind; intros Hn.
  - simpl. repeat split; try lra. f_equal; lra.
  - pose proof (length_present_snoc ts t) as Hle.
    destruct (IH ltac:(lia)) as (_ & _ & Hd).
    injection Hd as Hdx Hdy.
    pose proof (reachable_consistent (ts ++ [t])) as (_ & Hlt & _).
    destruct (histories_window (ts ++ [t])) as [Wx _].
    assert (Hlen : (length (dx_history (smooth_all (ts ++ [t]) init)) < 5)%nat).
    { rewrite Wx, length_lastn, length_map. lia. }
    destruct (Hlt Hlen) as [Hrx Hry].
    rewrite smooth_all_snoc in *.
    destruct (smooth_fields t (smooth_all ts init))
      as (_ & _ & Ex & Ey & Edx & Edy).
    rewrite <- Ex in Edx. rewrite <- Ey in Edy.
    rewrite Hrx, Hdx in Edx. rewrite Hry, Hdy in Edy.
    split; [exact Hrx|]. split; [exact Hry|].
    rewrite Edx, Edy. f_equal; ring.
Qed.

Lemma warm_up_direction_zero_witness :
  get_direction
    (smooth_all [Some (0.9, 0.9); None; Some (0.8, 0.7); Some (1, 1); None;
                 Some (0.5, -1)] init) = (0, 0).
Proof.
  apply (warm_up_direction_zero
           [Some (0.9, 0.9); None; Some (0.8, 0.7); Some (1, 1); None;
            Some (0.5, -1)]).
  simpl. lia.
Defined.

(** ** Ticks without detection *)



(** ** What the raw direction depends on *)

Lemma lastn_map {A B : Type} (f : A -> B) (n : nat) (l : list A) :
  lastn n (map f l) = map f (lastn n l).
Proof. unfold lastn. rewrite length_map. apply skipn_map. Qed.

(** In a reachable state the raw direction is a function of the two
    histories. *)
Lemma raw_from_histories (ts ts' : list (option (R * R))) :
  dx_history (smooth_all ts init) = dx_history (smooth_all ts' init) ->
  dy_history (smooth_all ts init) = dy_history (smooth_all ts' init) ->
  raw_dx (smooth_all ts init) = raw_dx (smooth_all ts' init) /\
  raw_dy (smooth_all ts init) = raw_dy (smooth_all ts' init).
Proof.
  intros Hx Hy.
  destruct (reachable_consistent ts) as (_ & Hlt & Hge).
  destruct (reachable_consistent ts') as (_ & Hlt' & Hge').
  rewrite <- Hx in Hlt'. rewrite <- Hx, <- Hy in Hge'.
  destruct (Nat.lt_ge_cases (length (dx_history (smooth_all ts init))) 5) as [H|H].
  - destruct (Hlt H) as [-> ->]. destruct (Hlt' H) as [-> ->]. auto.
  - destruct (Hge H) as [-> ->]. destruct (Hge' H) as [-> ->]. auto.
Qed.

(** X3.  The histories and the raw direction depend only on the last 20
    detections: two runs from the start whose last 20 detections agree end
    with the same histories and the same raw direction, whatever came
    before and however many ticks without detection lie in between. *)
Theorem raw_forgets_old_detections (ts ts' : list (option (R * R))) :
  lastn 20 (present ts) = lastn 20 (present ts') ->
  let s := smooth_all ts init in
  let s' := smooth_all ts' init in
  dx_history s = dx_history s' /\ dy_history s = dy_history s' /\
  raw_dx s = raw_dx s' /\ raw_dy s = raw_dy s'.
Proof.
  intros H. cbv zeta.
  destruct (histories_window ts) as [Wx Wy].
  destruct (histories_window ts') as [Wx' Wy'].
  unfold history_size in *.
  assert (Hx : dx_history (smooth_all ts init) = dx_history (smooth_all ts' init))
    by (rewrite Wx, Wx', !lastn_map, H; reflexivity).
  assert (Hy : dy_history (smooth_all ts init) = dy_history (smooth_all ts' init))
    by (rewrite Wy, Wy', !lastn_map, H; reflexivity).
  destruct (raw_from_histories ts ts' Hx Hy). auto.
Qed.

Lemma raw_forgets_old_detections_witness :
  raw_dx (smooth_all [Some (0.3, 0.1); None; None] init) =
  raw_dx (smooth_all [None; Some (0.3, 0.1)] init).
Proof.
  apply (raw_forgets_old_detections [Some (0.3, 0.1); None; None]
           [None; Some (0.3, 0.1)]).
  reflexivity.
Defined.

Lemma present_app (ts1 ts2 : list (option (R * R))) :
  present (ts1 ++ ts2) = present ts1 ++ present ts2.
Proof. unfold present. apply flat_map_app. Qed.

(** ** The two axes *)

Lemma observe_dx_channel (t t' : option (R * R)) (s s' : tracker) :
  option_map fst t = option_map fst t' ->
  dx_history s = dx_history s' -> raw_dx s = raw_dx s' ->
  dx_history (observe t s) = dx_history (observe t' s') /\
  raw_dx (observe t s) = raw_dx (observe t' s').
Proof.
  intros Ht Hh Hr.
  destruct t as [[x y]|], t' as [[x' y']|]; simpl in Ht; try discriminate;
    [|auto].
  injection Ht as ->. unfold observe. rewrite Hh.
  destruct (5 <=? length (deque_append history_size (dx_history s') x'))%nat;
    simpl; auto.
Qed.

Lemma observe_dy_channel (t t' : option (R * R)) (s s' : tracker) :
  option_map snd t = option_map snd t' ->
  length (dx_history s) = length (dx_history s') ->
  dy_history s = dy_history s' -> raw_dy s = raw_dy s' ->
  length (dx_history (observe t s)) = length (dx_history (observe t' s')) /\
  dy_history (observe t s) = dy_history (observe t' s') /\
  raw_dy (observe t s) = raw_dy (observe t' s').
Proof.
  intros Ht Hl Hh Hr.
  destruct t as [[x y]|], t' as [[x' y']|]; simpl in Ht; try discriminate;
    [|auto].
  injection Ht as ->.
  pose proof (length_deque_append_eq history_size _ _ x x' Hl) as Hl'.
  unfold observe. rewrite Hh, Hl'.
  destruct (5 <=? length (deque_append history_size (dx_history s') x'))%nat;
    simpl; auto.
Qed.

Lemma dx_channel_run (ts ts' : list (option (R * R))) (s s' : tracker) :
  map (option_map fst) ts = map (option_map fst) ts' ->
  dx_history s = dx_history s' -> raw_dx s = raw_dx s' -> dx s = dx s' ->
  dx_history (smooth_all ts s) = dx_history (smooth_all ts' s') /\
  raw_dx (smooth_all ts s) = raw_dx (smooth_all ts' s') /\
  dx (smooth_all ts s) = dx (smooth_all ts' s').
Proof.
  revert ts' s s'. induction ts as [|t ts IH]; intros [|t' ts'] s s' Hm Hh Hr Hd;
    try discriminate; [simpl; auto|].
  simpl in Hm. injection Hm as Ht Hm. simpl.
  destruct (observe_dx_channel t t' s s' Ht Hh Hr) as [Oh Or].
  destruct (smooth_fields t s) as (Ehx & _ & Erx & _ & Edx & _).
  destruct (smooth_fields t' s') as (Ehx' & _ & Erx' & _ & Edx' & _).
  apply IH; [exact Hm | congruence | congruence |].
  rewrite Edx, Edx', Or, Hd. reflexivity.
Qed.

Lemma dy_channel_run (ts ts' : list (option (R * R))) (s s' : tracker) :
  map (option_map snd) ts = map (option_map snd) ts' ->
  length (dx_history s) = length (dx_history s') ->
  dy_history s = dy_history s' -> raw_dy s = raw_dy s' -> dy s = dy s' ->
  dy_history (smooth_all ts s) = dy_history (smooth_all ts' s') /\
  raw_dy (smooth_all ts s) = raw_dy (smooth_all ts' s') /\
  dy (smooth_all ts s) = dy (smooth_all ts' s').
Proof.
  revert ts' s s'.
  induction ts as [|t ts IH]; intros [|t' ts'] s s' Hm Hl Hh Hr Hd;
    try discriminate; [simpl; auto|].
  simpl in Hm. injection Hm as Ht Hm. simpl.
  destruct (observe_dy_channel t t' s s' Ht Hl Hh Hr) as (Ol & Oh & Or).
  destruct (smooth_fields t s) as (Ehx & Ehy & _ & Ery & _ & Edy).
  destruct (smooth_fields t' s') as (Ehx' & Ehy' & _ & Ery' & _ & Edy').
  apply IH; [exact Hm | congruence | congruence | congruence |].
  rewrite Edy, Edy', Or, Hd. reflexivity.
Qed.

(** X5.  The two axes do not influence each other: two runs from the start
    that agree, tick by tick, on whether there is a detection and on its
    [dx] coordinate end with the same [dx] history, raw [dx] and smoothed
    [dx], whatever the [dy] coordinates were; and symmetrically for
    [dy]. *)
Theorem axes_independent (ts ts' : list (option (R * R))) :
  (map (option_map fst) ts = map (option_map fst) ts' ->
   dx_history (smooth_all ts init) = dx_history (smooth_all ts' init) /\
   raw_dx (smooth_all ts init) = raw_dx (smooth_all ts' init) /\
   dx (smooth_all ts init) = dx (smooth_all ts' init)) /\
  (map (option_map snd) ts = map (option_map snd) ts' ->
   dy_history (smooth_all ts init) = dy_history (smooth_all ts' init) /\
   raw_dy (smooth_all ts init) = raw_dy (smooth_all ts' init) /\
   dy (smooth_all ts init) = dy (smooth_all ts' init)).
Proof.
  split; intros H.
  - apply dx_channel_run; auto.
  - apply dy_channel_run; auto.
Qed.

Lemma axes_independent_witness :
  dx (smooth_all (ramp_samples 0 0 0 0 0) init) =
  dx (smooth_all (ramp_samples 1 (-1) 0.5 0.2 0.7) init).
Proof.
  apply (proj1 (axes_independent (ramp_samples 0 0 0 0 0)
                  (ramp_samples 1 (-1) 0.5 0.2 0.7))).
  reflexivity.
Defined.

(** ** Mirroring *)

Lemma deque_append_map (f : R -> R) (m : nat) (d : list R) (x : R) :
  deque_append m (map f d) (f x) = map f (deque_append m d x).
Proof.
  unfold deque_append.
  change (map f d ++ [f x]) with (map f d ++ map f [x]).
  rewrite <- map_app, length_map.
  destruct (m <? length (d ++ [x]))%nat; [|reflexivity].
  destruct (d ++ [x]); reflexivity.
Qed.

Lemma np_sum_multiply_scale (a : R) (h w : list R) :
  np_sum (np_multiply (map (Rmult a) h) w) = a * np_sum (np_multiply h w).
Proof.
  unfold np_multiply. revert w.
  induction h as [|x h IH]; intros [|y w]; simpl; try lra.
  rewrite IH. ring.
Qed.

Lemma np_average_scale (a : R) (h w : list R) :
  np_average (map (Rmult a) h) w = a * np_average h w.
Proof.
  unfold np_average. rewrite np_sum_multiply_scale. unfold Rdiv. ring.
Qed.

Lemma smooth_direction_scale (a b : R) (t : option (R * R)) (s : tracker) :
  _smooth_direction (scale_target a b t) (scale_tracker a b s) =
  scale_tracker a b (_smooth_direction t s).
Proof.
  unfold _smooth_direction, interpolate.
  destruct t as [[x y]|]; unfold scale_target, observe, scale_tracker;
    cbn [dx_history dy_history dx dy raw_dx raw_dy].
  - rewrite !deque_append_map, length_map.
    destruct (5 <=? length (deque_append history_size (dx_history s) x))%nat;
      cbn [dx_history dy_history dx dy raw_dx raw_dy];
      rewrite ?length_map, ?np_average_scale; f_equal; ring.
  - f_equal; ring.
Qed.

(** X6.  The smoothing commutes with mirroring: feeding every detection
    with its [dx] negated yields, from the start, the state of the
    unmirrored run with the [dx] history, raw [dx] and smoothed [dx]
    negated and the [dy] quantities untouched; likewise for [dy] negated,
    and for both.  [get_direction] then returns the mirrored pair. *)
Theorem smoothing_commutes_with_mirroring (ts : list (option (R * R))) :
  smooth_all (map (scale_target (-1) 1) ts) init =
    scale_tracker (-1) 1 (smooth_all ts init) /\
  smooth_all (map (scale_target 1 (-1)) ts) init =
    scale_tracker 1 (-1) (smooth_all ts init) /\
  smooth_all (map (scale_target (-1) (-1)) ts) init =
    scale_tracker (-1) (-1) (smooth_all ts init) /\
  get_direction (smooth_all (map (scale_target (-1) 1) ts) init) =
    (- dx (smooth_all ts init), dy (smooth_all ts init)) /\
  get_direction (smooth_all (map (scale_target 1 (-1)) ts) init) =
    (dx (smooth_all ts init), - dy (smooth_all ts init)).
Proof.
  assert (H : forall a b s,
             smooth_all (map (scale_target a b) ts) (scale_tracker a b s) =
             scale_tracker a b (smooth_all ts s)).
  { intros a b. induction ts as [|t ts IH]; intros s; [reflexivity|].
    simpl. rewrite smooth_direction_scale. apply IH. }
  assert (Hi : forall a b, scale_tracker a b init = init).
  { intros a b. unfold scale_tracker, init; simpl. f_equal; lra. }
  assert (E : forall a b, smooth_all (map (scale_target a b) ts) init =
                          scale_tracker a b (smooth_all ts init)).
  { intros a b. rewrite <- (Hi a b) at 1. apply H. }
  repeat split; try apply E.
  - rewrite E. unfold get_direction, scale_tracker; simpl. f_equal; ring.
  - rewrite E. unfold get_direction, scale_tracker; simpl. f_equal; ring.
Qed.

(** ** Sides of the centre *)

Lemma interval_step (lo hi : R) (ts : list (option (R * R)))
      (hist : tracker -> list R) (raw : tracker -> R) (sel : R * R -> R) :
  lo <= 0 <= hi ->
  (forall u, hist (smooth_all u init) = lastn history_size (map sel (present u))) ->
  (forall u, (length (dx_history (smooth_all u init)) < 5)%nat ->
             raw (smooth_all u init) = 0) ->
  (forall u, (5 <= length (dx_history (smooth_all u init)))%nat ->
             raw (smooth_all u init) =
             np_average (hist (smooth_all u init))
               (ramp_weights (length (hist (smooth_all u init))))) ->
  (forall u, length (hist (smooth_all u init)) = length (dx_history (smooth_all u init))) ->
  Forall (fun p => lo <= sel p <= hi) (present ts) ->
  lo <= raw (smooth_all ts init) <= hi.
Proof.
  intros H0 Hw Hlt Hge Hlen HF.
  destruct (Nat.lt_ge_cases (length (dx_history (smooth_all ts init))) 5) as [Hn|Hn].
  - rewrite (Hlt ts Hn). exact H0.
  - rewrite (Hge ts Hn).
    apply np_average_ramp_bounds; [rewrite Hlen; lia|].
    rewrite Hw. apply Forall_lastn.
    rewrite Forall_forall in *. intros x Hx.
    apply in_map_iff in Hx. destruct Hx as [p [<- Hp]]. auto.
Qed.

Lemma raw_dx_in_interval (lo hi : R) (ts : list (option (R * R))) :
  lo <= 0 <= hi ->
  Forall (fun p => lo <= fst p <= hi) (present ts) ->
  lo <= raw_dx (smooth_all ts init) <= hi.
Proof.
  intros H0 HF.
  apply (interval_step lo hi ts dx_history raw_dx fst); auto.
  - intros u. apply histories_window.
  - intros u Hu. apply (reachable_consistent u). exact Hu.
  - intros u Hu. apply (reachable_consistent u). exact Hu.
Qed.

Lemma raw_dy_in_interval (lo hi : R) (ts : list (option (R * R))) :
  lo <= 0 <= hi ->
  Forall (fun p => lo <= snd p <= hi) (present ts) ->
  lo <= raw_dy (smooth_all ts init) <= hi.
Proof.
  intros H0 HF.
  apply (interval_step lo hi ts dy_history raw_dy snd); auto.
  - intros u. apply histories_window.
  - intros u Hu. apply (reachable_consistent u). exact Hu.
  - intros u Hu. destruct (reachable_consistent u) as (Hl & _ & Hge).
    rewrite Hl. apply Hge. exact Hu.
  - intros u. apply (reachable_consistent u).
Qed.

Lemma Forall_present_prefix (P : R * R -> Prop) (ts : list (option (R * R)))
      (t : option (R * R)) :
  Forall P (present (ts ++ [t])) -> Forall P (present ts).
Proof. rewrite present_snoc. intros H. apply Forall_app in H. tauto. Qed.

Lemma dx_in_interval (lo hi : R) (ts : list (option (R * R))) :
  lo <= 0 <= hi ->
  Forall (fun p => lo <= fst p <= hi) (present ts) ->
  lo <= dx (smooth_all ts init) <= hi.
Proof.
  intros H0.
  induction ts as [|t ts IH] using rev_ind; intros HF; [simpl; lra|].
  pose proof (raw_dx_in_interval lo hi _ H0 HF) as Hr.
  specialize (IH (Forall_present_prefix _ _ _ HF)).
  rewrite smooth_all_snoc in *.
  destruct (smooth_fields t (smooth_all ts init)) as (_ & _ & Er & _ & Ed & _).
  rewrite <- Er in Ed. rewrite Ed. unfold smoothing_factor. lra.
Qed.

Lemma dy_in_interval (lo hi : R) (ts : list (option (R * R))) :
  lo <= 0 <= hi ->
  Forall (fun p => lo <= snd p <= hi) (present ts) ->
  lo <= dy (smooth_all ts init) <= hi.
Proof.
  intros H0.
  induction ts as [|t ts IH] using rev_ind; intros HF; [simpl; lra|].
  pose proof (raw_dy_in_interval lo hi _ H0 HF) as Hr.
  specialize (IH (Forall_present_prefix _ _ _ HF)).
  rewrite smooth_all_snoc in *.
  destruct (smooth_fields t (smooth_all ts init)) as (_ & _ & _ & Er & _ & Ed).
  rewrite <- Er in Ed. rewrite Ed. unfold smoothing_factor. lra.
Qed.

Lemma bounded_above (sel : R * R -> R) (l : list (R * R)) :
  exists hi, 0 <= hi /\ Forall (fun p => sel p <= hi) l.
Proof.
  induction l as [|p l (hi & H0 & HF)].
  - exists 0. split; [lra | constructor].
  - exists (Rmax hi (sel p)).
    pose proof (Rmax_l hi (sel p)). pose proof (Rmax_r hi (sel p)).
    split; [lra|]. constructor; [lra|].
    rewrite Forall_forall in *. intros q Hq. specialize (HF q Hq). lra.
Qed.

Lemma bounded_below (sel : R * R -> R) (l : list (R * R)) :
  exists lo, lo <= 0 /\ Forall (fun p => lo <= sel p) l.
Proof.
  induction l as [|p l (lo & H0 & HF)].
  - exists 0. split; [lra | constructor].
  - exists (Rmin lo (sel p)).
    pose proof (Rmin_l lo (sel p)). pose proof (Rmin_r lo (sel p)).
    split; [lra|]. constructor; [lra|].
    rewrite Forall_forall in *. intros q Hq. specialize (HF q Hq). lra.
Qed.

Lemma Forall_both (P Q : R * R -> Prop) (l : list (R * R)) :
  Forall P l -> Forall Q l -> Forall (fun p => P p /\ Q p) l.
Proof.
  rewrite !Forall_forall. intros HP HQ p Hp. split; auto.
Qed.

(** X7.  The direction keeps the side of the detections: if the [dx]
    coordinate of every detection fed since the start is nonnegative, the
    raw and the smoothed [dx] are nonnegative after every call; if all are
    nonpositive, so are they; the same for [dy].  Detections on one side
    of the centre never produce a direction on the other side. *)
Theorem direction_keeps_side (ts : list (option (R * R))) :
  let s := smooth_all ts init in
  (Forall (fun p => 0 <= fst p) (present ts) -> 0 <= raw_dx s /\ 0 <= dx s) /\
  (Forall (fun p => fst p <= 0) (present ts) -> raw_dx s <= 0 /\ dx s <= 0) /\
  (Forall (fun p => 0 <= snd p) (present ts) -> 0 <= raw_dy s /\ 0 <= dy s) /\
  (Forall (fun p => snd p <= 0) (present ts) -> raw_dy s <= 0 /\ dy s <= 0).
Proof.
  cbv zeta. split; [|split; [|split]]; intros HF.
  - destruct (bounded_above fst (present ts)) as (hi & H0 & Hhi).
    pose proof (Forall_both _ _ _ HF Hhi) as HB.
    pose proof (raw_dx_in_interval 0 hi ts ltac:(lra) HB).
    pose proof (dx_in_interval 0 hi ts ltac:(lra) HB). lra.
  - destruct (bounded_below fst (present ts)) as (lo & H0 & Hlo).
    pose proof (Forall_both _ _ _ Hlo HF) as HB.
    pose proof (raw_dx_in_interval lo 0 ts ltac:(lra) HB).
    pose proof (dx_in_interval lo 0 ts ltac:(lra) HB). lra.
  - destruct (bounded_above snd (present ts)) as (hi & H0 & Hhi).
    pose proof (Forall_both _ _ _ HF Hhi) as HB.
    pose proof (raw_dy_in_interval 0 hi ts ltac:(lra) HB).
    pose proof (dy_in_interval 0 hi ts ltac:(lra) HB). lra.
  - destruct (bounded_below snd (present ts)) as (lo & H0 & Hlo).
    pose proof (Forall_both _ _ _ Hlo HF) as HB.
    pose proof (raw_dy_in_interval lo 0 ts ltac:(lra) HB).
    pose proof (dy_in_interval lo 0 ts ltac:(lra) HB). lra.
Qed.

Lemma direction_keeps_side_witness :
  0 <= raw_dx (smooth_all (ramp_samples 0 0 0 0 0) init) /\
  0 <= dx (smooth_all (ramp_samples 0 0 0 0 0) init).
Proof.
  apply (proj1 (direction_keeps_side (ramp_samples 0 0 0 0 0))).
  unfold ramp_samples; simpl. repeat constructor; simpl; lra.
Defined.

(** * Further properties of the loop *)

Section TickProperties.

Variable frame : Type.
Variable cv2_flip : frame -> frame.
Variable detect_face_position : frame -> option (R * R).

(** The passes of the loop amount to calls of [_smooth_direction]: one
    per successful capture read, with the detection found in the mirrored
    frame, in the order of the reads. *)
Lemma run_ticks_smooth_all (reads : list (option frame)) (s : tracker) :
  run_ticks cv2_flip detect_face_position reads s =
  smooth_all (detections cv2_flip detect_face_position reads) s.
Proof.
  revert s. induction reads as [|rd reads IH]; intros s; [reflexivity|].
  unfold run_ticks, detections in *. simpl.
  rewrite IH. destruct rd as [fr|]; reflexivity.
Qed.

Lemma run_step (m : move frame) (sched : list (move frame)) (w : world) :
  run cv2_flip detect_face_position (m :: sched) w =
  run cv2_flip detect_face_position sched
    (step cv2_flip detect_face_position w m).
Proof. reflexivity. Qed.

Lemma core_of_run (sched : list (move frame)) (w : world) :
  core (run cv2_flip detect_face_position sched w) =
    run_ticks cv2_flip detect_face_position
      (consumed cv2_flip detect_face_position sched w) (core w) /\
  cap_reads (run cv2_flip detect_face_position sched w) =
    (cap_reads w + length (consumed cv2_flip detect_face_position sched w))%nat.
Proof.
  revert w. induction sched as [|m sched IH]; intros w.
  - simpl. split; [reflexivity | lia].
  - rewrite run_step. destruct (IH (step cv2_flip detect_face_position w m))
      as [Hc Hr].
    rewrite Hc, Hr. cbn [consumed].
    destruct m as [rd|]; unfold step, step_loop, step_cleanup.
    + destruct (loop_at w); cbn [core cap_reads app length];
        (split; [reflexivity | lia]).
    + destruct (cleanup_at w), (loop_at w); cbn [core cap_reads app length];
        (split; [reflexivity | lia]).
Qed.

(** X8.  Whatever the interleaving of the loop thread with [cleanup], the
    tracker state is at every point the state of the sequential loop after
    the capture results consumed so far, that is, the result of one call of
    [_smooth_direction] per successful read, in order: [cleanup] never
    changes the histories or the direction, a failed read leaves no trace,
    and the number of capture reads grows by the number of results
    consumed. *)
Theorem interleaved_state_is_sequential
        (sched : list (move frame)) (w : world) :
  let reads := consumed cv2_flip detect_face_position sched w in
  let w' := run cv2_flip detect_face_position sched w in
  core w' = run_ticks cv2_flip detect_face_position reads (core w) /\
  core w' =
    smooth_all (detections cv2_flip detect_face_position reads) (core w) /\
  cap_reads w' = (cap_reads w + length reads)%nat.
Proof.
  cbv zeta. destruct (core_of_run sched w) as [Hc Hr].
  split; [exact Hc|]. split; [|exact Hr].
  rewrite Hc. apply run_ticks_smooth_all.
Qed.

Lemma detections_bounded (reads : list (option frame)) (P : R * R -> Prop) :
  (forall fr p, detect_face_position fr = Some p -> P p) ->
  Forall P (present (detections cv2_flip detect_face_position reads)).
Proof.
  intros H. induction reads as [|rd reads IH]; [constructor|].
  unfold detections in *. simpl. rewrite present_app.
  apply Forall_app. split; [|exact IH].
  destruct rd as [fr|]; [|constructor].
  simpl. destruct (detect_face_position (cv2_flip fr)) as [p|] eqn:E; simpl.
  - constructor; [|constructor]. apply (H _ _ E).
  - constructor.
Qed.

(** X9.  If the detector only ever returns offsets within [[-1, 1]] on
    both axes, then at every point of every execution, whatever the
    capture delivers and however the loop and [cleanup] interleave, the
    pair returned by [get_direction] lies within [[-1, 1]] on both
    axes. *)
Theorem served_direction_in_unit_square (sched : list (move frame)) :
  (forall fr x y, detect_face_position fr = Some (x, y) ->
                  -1 <= x <= 1 /\ -1 <= y <= 1) ->
  let d := get_direction (core (run cv2_flip detect_face_position sched world0)) in
  -1 <= fst d <= 1 /\ -1 <= snd d <= 1.
Proof.
  intros H. cbv zeta. unfold get_direction. cbn [fst snd].
  destruct (core_of_run sched world0) as [Hc _].
  rewrite Hc, run_ticks_smooth_all. cbn [core world0].
  split.
  - apply dx_in_interval; [lra|].
    apply detections_bounded. intros fr [x y] E. apply (H _ _ _ E).
  - apply dy_in_interval; [lra|].
    apply detections_bounded. intros fr [x y] E. apply (H _ _ _ E).
Qed.

(** X10.  Once the loop has left its [while] nothing moves any more: under
    every further schedule the loop stays exited, the capture is not read
    again, and the histories and the direction returned by
    [get_direction] stay what they were. *)
Theorem exited_loop_is_frozen (sched : list (move frame)) (w : world) :
  loop_at w = Exited ->
  let w' := run cv2_flip detect_face_position sched w in
  loop_at w' = Exited /\ cap_reads w' = cap_reads w /\ core w' = core w /\
  get_direction (core w') = get_direction (core w).
Proof.
  cbv zeta. revert w. induction sched as [|m sched IH]; intros w Hw.
  - simpl. auto.
  - rewrite run_step.
    assert (Hs : loop_at (step cv2_flip detect_face_position w m) = Exited /\
                 cap_reads (step cv2_flip detect_face_position w m) = cap_reads w /\
                 core (step cv2_flip detect_face_position w m) = core w).
    { destruct m as [rd|]; unfold step, step_loop, step_cleanup.
      - rewrite Hw. auto.
      - destruct (cleanup_at w); simpl; auto. }
    destruct Hs as (Hl & Hr & Hc).
    destruct (IH _ Hl) as (Hl' & Hr' & Hc' & _).
    rewrite Hl', Hr', Hc', Hr, Hc. auto.
Qed.

End TickProperties.

Lemma served_direction_in_unit_square_witness :
  let d := get_direction
             (core (run flip_blank detect_fixed
                      [Loop (Some tt); Loop (Some tt); Cleanup; Loop None]
                      world0)) in
  -1 <= fst d <= 1 /\ -1 <= snd d <= 1.
Proof.
  apply (served_direction_in_unit_square blank flip_blank detect_fixed
           [Loop (Some tt); Loop (Some tt); Cleanup; Loop None]).
  intros fr x y E. injection E as <- <-. lra.
Defined.

Lemma exited_loop_is_frozen_witness :
  let w := run flip_blank detect_nothing
             [Cleanup; Loop None] world0 in
  loop_at w = Exited /\
  core (run flip_blank detect_nothing [Loop (Some tt); Cleanup; Loop None] w)
  = core w.
Proof.
  cbv zeta. split; [reflexivity|].
  apply (exited_loop_is_frozen blank flip_blank detect_nothing
           [Loop (Some tt); Cleanup; Loop None]
           (run flip_blank detect_nothing [Cleanup; Loop None] world0)
           eq_refl).
Defined.

(** * Properties of [detect_face_position] *)

(** ** Integers in [int32] *)

Lemma wrap32_small (z : Z) :
  (- 2 ^ 31 <= z < 2 ^ 31)%Z -> Detector.wrap32 z = z.
Proof.
  intros H. unfold Detector.wrap32.
  rewrite Z.mod_small by lia. lia.
Qed.

Lemma wrap32_add_l (a b : Z) :
  Detector.wrap32 (Detector.wrap32 a + b) = Detector.wrap32 (a + b).
Proof.
  unfold Detector.wrap32.
  replace ((a + 2 ^ 31) mod 2 ^ 32 - 2 ^ 31 + b + 2 ^ 31)%Z
    with ((a + 2 ^ 31) mod 2 ^ 32 + b)%Z by lia.
  rewrite Z.add_mod_idemp_l by lia.
  replace (a + 2 ^ 31 + b)%Z with (a + b + 2 ^ 31)%Z by lia.
  reflexivity.
Qed.

Lemma wrap32_add_l2 (a b c : Z) :
  Detector.wrap32 (Detector.wrap32 a + b + c) = Detector.wrap32 (a + b + c).
Proof.
  transitivity (Detector.wrap32 (Detector.wrap32 (Detector.wrap32 a + b) + c)).
  - symmetry. apply wrap32_add_l.
  - rewrite (wrap32_add_l a b). apply wrap32_add_l.
Qed.

Lemma half_bounds (a : Z) : (0 <= a -> 0 <= Detector.half a <= a)%Z.
Proof.
  intros H. unfold Detector.half.
  pose proof (Z.div_mod a 2 ltac:(lia)).
  pose proof (Z.mod_pos_bound a 2 ltac:(lia)). lia.
Qed.

Lemma half_lt (a : Z) : (1 <= a -> Detector.half a < a)%Z.
Proof.
  intros H. unfold Detector.half.
  pose proof (Z.div_mod a 2 ltac:(lia)).
  pose proof (Z.mod_pos_bound a 2 ltac:(lia)). lia.
Qed.

(** The sum of four terms inside [eye_center] does not depend on the order
    of the two eyes. *)
Lemma eye_center_sym (base l0 l2 r0 r2 : Z) :
  Detector.eye_center base l0 l2 r0 r2 = Detector.eye_center base r0 r2 l0 l2.
Proof.
  unfold Detector.eye_center, Detector.add32.
  rewrite !wrap32_add_l, !wrap32_add_l2.
  replace (l0 + Detector.half l2 + r0 + Detector.half r2)%Z
    with (r0 + Detector.half r2 + l0 + Detector.half l2)%Z by lia.
  reflexivity.
Qed.

(** A centre computed from a span inside [[0, dim]] gives an offset within
    [[-1, 1]]. *)
Lemma offset_in_unit (center dim : Z) :
  (2 <= dim <= 2 ^ 30)%Z -> (0 <= center <= dim - 1)%Z ->
  -1 <= Detector.offset center dim <= 1.
Proof.
  intros Hd Hc. unfold Detector.offset, Detector.sub32.
  pose proof (Z.div_mod dim 2 ltac:(lia)) as Hdm.
  pose proof (Z.mod_pos_bound dim 2 ltac:(lia)) as Hmb.
  assert (Hpos : (1 <= dim / 2)%Z) by lia.
  assert (Hhi : (dim / 2 <= 2 ^ 30)%Z) by lia.
  rewrite wrap32_small by lia.
  assert (Hn : (- (dim / 2) <= center - dim / 2 <= dim / 2)%Z) by lia.
  destruct Hn as [Hn1 Hn2].
  apply IZR_le in Hn1, Hn2, Hpos. rewrite opp_IZR in Hn1.
  set (n := IZR (center - dim / 2)) in *.
  set (d := IZR (dim / 2)) in *.
  split.
  - apply (Rmult_le_reg_r d); [lra|].
    unfold Rdiv. rewrite Rmult_assoc, Rinv_l by lra. lra.
  - apply (Rmult_le_reg_r d); [lra|].
    unfold Rdiv. rewrite Rmult_assoc, Rinv_l by lra. lra.
Qed.

(** ** The largest face (line 58) *)

Lemma max_from_spec {A : Type} (key : A -> Z) (l : list A) (best : A) :
  exists pre post,
    best :: l = pre ++ Detector.max_from key best l :: post /\
    Forall (fun a => (key a < key (Detector.max_from key best l))%Z) pre /\
    Forall (fun a => (key a <= key (Detector.max_from key best l))%Z) post.
Proof.
  revert best. induction l as [|a rest IH]; intros best.
  - exists [], []. simpl. repeat split; constructor.
  - simpl. destruct (Z.ltb_spec (key best) (key a)) as [Hlt|Hge].
    + destruct (IH a) as (pre & post & E & Hpre & Hpost).
      remember (Detector.max_from key a rest) as r eqn:Hr. clear Hr.
      exists (best :: pre), post. rewrite E.
      split; [reflexivity|]. split; [|exact Hpost].
      constructor; [|exact Hpre].
      destruct pre as [|p pre]; simpl in E; injection E as E1 E2.
      * subst r. exact Hlt.
      * subst p. inversion Hpre; subst. lia.
    + destruct (IH best) as (pre & post & E & Hpre & Hpost).
      remember (Detector.max_from key best rest) as r eqn:Hr. clear Hr.
      destruct pre as [|p pre]; simpl in E; injection E as E1 E2.
      * subst r rest. exists [], (a :: post).
        split; [reflexivity|]. split; [constructor|].
        constructor; [exact Hge | exact Hpost].
      * subst p rest. exists (best :: a :: pre), post.
        split; [reflexivity|]. split; [|exact Hpost].
        inversion Hpre; subst.
        constructor; [assumption|]. constructor; [lia | assumption].
Qed.

Lemma area_exact (r : Detector.rect) :
  (0 <= Detector.rect_w r <= 2 ^ 15)%Z -> (0 <= Detector.rect_h r <= 2 ^ 15)%Z ->
  Detector.area r = (Detector.rect_w r * Detector.rect_h r)%Z.
Proof.
  intros Hw Hh. unfold Detector.area, Detector.mul32.
  apply wrap32_small. nia.
Qed.

(** X11.  The face used is a detected one of the greatest area and, among
    several of that area, the first in the detector's order: every face
    before it has a strictly smaller [w * h] and every face after it an
    at most equal one (sides up to [2^15], so that the [int32] product is
    the true area).  No face is chosen exactly when none was detected. *)
Theorem largest_face_is_first_maximal (faces : list Detector.rect) :
  Forall (fun f => (0 <= Detector.rect_w f <= 2 ^ 15)%Z /\
                   (0 <= Detector.rect_h f <= 2 ^ 15)%Z) faces ->
  match Detector.largest_face faces with
  | None => faces = []
  | Some face =>
      exists before after,
        faces = before ++ face :: after /\
        Forall (fun f => (Detector.rect_w f * Detector.rect_h f <
                          Detector.rect_w face * Detector.rect_h face)%Z) before /\
        Forall (fun f => (Detector.rect_w f * Detector.rect_h f <=
                          Detector.rect_w face * Detector.rect_h face)%Z) after
  end.
Proof.
  intros HF. destruct faces as [|f others]; [reflexivity|].
  unfold Detector.largest_face.
  destruct (max_from_spec Detector.area others f) as (pre & post & E & Hpre & Hpost).
  set (face := Detector.max_from Detector.area f others) in *.
  exists pre, post. split; [exact E|].
  rewrite E in HF. apply Forall_app in HF. destruct HF as [HFpre HFrest].
  inversion HFrest as [|? ? [Hw Hh] HFpost]; subst.
  rewrite (area_exact face Hw Hh) in Hpre, Hpost.
  split.
  - rewrite Forall_forall in *. intros g Hg.
    specialize (Hpre g Hg). destruct (HFpre g Hg) as [Gw Gh].
    rewrite (area_exact g Gw Gh) in Hpre. exact Hpre.
  - rewrite Forall_forall in *. intros g Hg.
    specialize (Hpost g Hg). destruct (HFpost g Hg) as [Gw Gh].
    rewrite (area_exact g Gw Gh) in Hpost. exact Hpost.
Qed.

Lemma largest_face_is_first_maximal_witness :
  exists before after,
    [small_face; big_face; small_face] = before ++ big_face :: after /\
    Forall (fun f => (Detector.rect_w f * Detector.rect_h f <
                      Detector.rect_w big_face * Detector.rect_h big_face)%Z) before /\
    Forall (fun f => (Detector.rect_w f * Detector.rect_h f <=
                      Detector.rect_w big_face * Detector.rect_h big_face)%Z) after.
Proof.
  apply (largest_face_is_first_maximal [small_face; big_face; small_face]).
  repeat constructor; simpl; lia.
Defined.

(** ** Offsets within the unit square *)

Lemma face_center_range (base size dim : Z) :
  (0 <= base)%Z -> (1 <= size)%Z -> (base + size <= dim)%Z -> (dim <= 2 ^ 30)%Z ->
  (0 <= Detector.face_center base size <= dim - 1)%Z.
Proof.
  intros Hb Hs Hd Hm. unfold Detector.face_center, Detector.add32.
  pose proof (half_bounds size ltac:(lia)). pose proof (half_lt size Hs).
  rewrite wrap32_small by lia. lia.
Qed.

Lemma eye_center_range (base width dim l0 l2 r0 r2 : Z) :
  (0 <= base)%Z -> (base + width <= dim)%Z -> (dim <= 2 ^ 30)%Z ->
  (0 <= l0)%Z -> (1 <= l2)%Z -> (l0 + l2 <= width)%Z ->
  (0 <= r0)%Z -> (1 <= r2)%Z -> (r0 + r2 <= width)%Z ->
  (0 <= Detector.eye_center base l0 l2 r0 r2 <= dim - 1)%Z.
Proof.
  intros Hb Hd Hm Hl0 Hl2 Hl Hr0 Hr2 Hr.
  unfold Detector.eye_center, Detector.add32.
  pose proof (half_bounds l2 ltac:(lia)). pose proof (half_lt l2 Hl2).
  pose proof (half_bounds r2 ltac:(lia)). pose proof (half_lt r2 Hr2).
  rewrite (wrap32_small (l0 + Detector.half l2)) by lia.
  rewrite (wrap32_small (l0 + Detector.half l2 + r0)) by lia.
  rewrite (wrap32_small (l0 + Detector.half l2 + r0 + Detector.half r2)) by lia.
  set (sum := (l0 + Detector.half l2 + r0 + Detector.half r2)%Z) in *.
  assert (Hsum : (0 <= sum <= 2 * (width - 1))%Z) by (unfold sum; lia).
  assert (Hh : (0 <= Detector.half sum <= width - 1)%Z).
  { unfold Detector.half.
    pose proof (Z.div_mod sum 2 ltac:(lia)).
    pose proof (Z.mod_pos_bound sum 2 ltac:(lia)). lia. }
  rewrite wrap32_small by lia. lia.
Qed.

(** *** Python's [sorted] *)

Lemma insert_sorted_perm {A : Type} (key : A -> Z) (a : A) (l : list A) :
  Permutation (Detector.insert_sorted key a l) (a :: l).
Proof.
  induction l as [|b l IH]; simpl; [apply Permutation_refl|].
  destruct (key a <=? key b)%Z; [apply Permutation_refl|].
  apply perm_trans with (b :: a :: l); [|apply perm_swap].
  apply perm_skip. exact IH.
Qed.

Lemma sorted_perm {A : Type} (key : A -> Z) (l : list A) :
  Permutation (Detector.sorted key l) l.
Proof.
  unfold Detector.sorted. induction l as [|a l IH]; simpl; [constructor|].
  apply perm_trans with (a :: fold_right (Detector.insert_sorted key) [] l).
  - apply insert_sorted_perm.
  - apply perm_skip. exact IH.
Qed.

Lemma insert_sorted_ordered {A : Type} (key : A -> Z) (a : A) (l : list A) :
  StronglySorted (fun u v => (key u <= key v)%Z) l ->
  StronglySorted (fun u v => (key u <= key v)%Z) (Detector.insert_sorted key a l).
Proof.
  intros H. induction H as [|b l Hs IH Hb]; simpl.
  - constructor; constructor.
  - destruct (Z.leb_spec (key a) (key b)) as [Hle|Hgt].
    + constructor; [constructor; assumption|].
      constructor; [exact Hle|].
      rewrite Forall_forall in *. intros x Hx. specialize (Hb x Hx). lia.
    + constructor; [exact IH|].
      rewrite Forall_forall in *. intros x Hx.
      apply (Permutation_in _ (insert_sorted_perm key a l)) in Hx.
      destruct Hx as [<-|Hx]; [lia | apply Hb; exact Hx].
Qed.

Lemma sorted_ordered {A : Type} (key : A -> Z) (l : list A) :
  StronglySorted (fun u v => (key u <= key v)%Z) (Detector.sorted key l).
Proof.
  unfold Detector.sorted. induction l as [|a l IH]; simpl; [constructor|].
  apply insert_sorted_ordered. exact IH.
Qed.

(** With two or more elements, the sorted list starts with two elements of
    the input, in key order, followed by elements of no smaller key. *)
Lemma sorted_first_two {A : Type} (key : A -> Z) (l : list A) (d : A) :
  (2 <= length l)%nat ->
  exists rest,
    Detector.sorted key l =
      nth 0 (Detector.sorted key l) d :: nth 1 (Detector.sorted key l) d :: rest /\
    Permutation l
      (nth 0 (Detector.sorted key l) d :: nth 1 (Detector.sorted key l) d :: rest) /\
    (key (nth 0 (Detector.sorted key l) d) <= key (nth 1 (Detector.sorted key l) d))%Z /\
    Forall (fun e => (key (nth 1 (Detector.sorted key l) d) <= key e)%Z) rest.
Proof.
  intros Hn.
  pose proof (sorted_perm key l) as Hp.
  pose proof (sorted_ordered key l) as Hs.
  pose proof (Permutation_length Hp) as Hl.
  destruct (Detector.sorted key l) as [|u [|v rest]]; simpl in Hl; try lia.
  exists rest. simpl. split; [reflexivity|].
  split; [apply Permutation_sym; exact Hp|].
  inversion Hs as [|? ? Hs' Hu]; subst.
  inversion Hs' as [|? ? _ Hv]; subst.
  inversion Hu; subst. auto.
Qed.

Section DetectorProperties.

Variable frame : Type.
Variable detect_faces : frame -> list Detector.rect.
Variable detect_eyes : frame -> Detector.rect -> list Detector.rect.
Variable frame_shape : frame -> Z * Z.

Lemma largest_face_in (faces : list Detector.rect) (face : Detector.rect) :
  Detector.largest_face faces = Some face -> In face faces.
Proof.
  destruct faces as [|f others]; [discriminate|].
  unfold Detector.largest_face. intros H. injection H as <-.
  destruct (max_from_spec Detector.area others f) as (pre & post & E & _).
  rewrite E. apply in_or_app. right. left. reflexivity.
Qed.

Lemma offsets_in_unit_square (fr : frame) (x y : R) :
  Detector.well_placed detect_faces detect_eyes frame_shape fr ->
  Detector.detect_face_position detect_faces detect_eyes frame_shape fr
  = Some (x, y) ->
  -1 <= x <= 1 /\ -1 <= y <= 1.
Proof.
  unfold Detector.well_placed, Detector.detect_face_position.
  destruct (frame_shape fr) as [frame_h frame_w].
  intros (Hw & Hh & Hfaces & Heyes).
  destruct (Detector.largest_face (detect_faces fr)) as [face|] eqn:Hlf;
    [|discriminate].
  pose proof (largest_face_in _ _ Hlf) as Hin.
  rewrite Forall_forall in Hfaces.
  destruct (Hfaces face Hin) as (Fx & Fy & Fw & Fh & Fxw & Fyh).
  specialize (Heyes face Hin). rewrite Forall_forall in Heyes.
  destruct (Nat.leb_spec 2 (length (detect_eyes fr face))) as [Hn|Hn];
    intros H; injection H as <- <-.
  - destruct (sorted_first_two Detector.rect_x (detect_eyes fr face) face Hn)
      as (rest & _ & Hp & _).
    set (left_eye := nth 0 (Detector.sorted Detector.rect_x (detect_eyes fr face)) face) in *.
    set (right_eye := nth 1 (Detector.sorted Detector.rect_x (detect_eyes fr face)) face) in *.
    assert (Hl : In left_eye (detect_eyes fr face))
      by (apply (Permutation_in _ (Permutation_sym Hp)); left; reflexivity).
    assert (Hr : In right_eye (detect_eyes fr face))
      by (apply (Permutation_in _ (Permutation_sym Hp)); right; left; reflexivity).
    destruct (Heyes _ Hl) as (Lx & Ly & Lw & Lh & Lxw & Lyh).
    destruct (Heyes _ Hr) as (Rx & Ry & Rw & Rh & Rxw & Ryh).
    split; apply offset_in_unit; try lia.
    + apply (eye_center_range _ (Detector.rect_w face)); lia.
    + apply (eye_center_range _ (Detector.rect_h face)); lia.
  - split; apply offset_in_unit; try lia; apply face_center_range; lia.
Qed.

(** X12.  [detect_face_position] returns [(None, None)] exactly when no
    face is detected.  Otherwise, for a frame between 2 and [2^30] pixels
    each way whose faces lie inside the frame and whose eyes lie inside the
    face region, both offsets lie within [[-1, 1]], whether they come from
    the eyes or from the face centre (and whichever face the area key,
    an [int32] product that may wrap, has selected). *)
Theorem detected_offset_in_unit_square (fr : frame) :
  Detector.well_placed detect_faces detect_eyes frame_shape fr ->
  (Detector.detect_face_position detect_faces detect_eyes frame_shape fr = None
   <-> detect_faces fr = []) /\
  (forall x y,
      Detector.detect_face_position detect_faces detect_eyes frame_shape fr
      = Some (x, y) ->
      -1 <= x <= 1 /\ -1 <= y <= 1).
Proof.
  intros Hwp. split; [|intros x y; apply offsets_in_unit_square; exact Hwp].
  unfold Detector.detect_face_position.
  destruct (detect_faces fr) as [|f others] eqn:Hf; cbn [Detector.largest_face].
  - split; reflexivity.
  - destruct (frame_shape fr) as [frame_h frame_w].
    destruct (2 <=? length (detect_eyes fr (Detector.max_from Detector.area f others)))%nat;
      split; intros H; discriminate.
Qed.

(** X18.  The whole server side: if every frame the capture delivers is,
    once mirrored, between 2 and [2^30] pixels each way with its faces
    inside the frame and its eyes inside the face region, then at every
    point of every execution the pair returned by [get_direction] lies
    within [[-1, 1]] on both axes. *)
Theorem tracked_direction_in_unit_square
        (cv2_flip : frame -> frame) (sched : list (move frame)) :
  (forall fr, Detector.well_placed detect_faces detect_eyes frame_shape fr) ->
  let detect := Detector.detect_face_position detect_faces detect_eyes frame_shape in
  let d := get_direction (core (run cv2_flip detect sched world0)) in
  -1 <= fst d <= 1 /\ -1 <= snd d <= 1.
Proof.
  intros Hwp. cbv zeta. unfold get_direction. cbn [fst snd].
  destruct (core_of_run frame cv2_flip
              (Detector.detect_face_position detect_faces detect_eyes frame_shape)
              sched world0) as [Hc _].
  rewrite Hc, run_ticks_smooth_all. cbn [core world0].
  split.
  - apply dx_in_interval; [lra|].
    apply detections_bounded. intros fr [x y] E.
    apply (offsets_in_unit_square fr x y (Hwp fr) E).
  - apply dy_in_interval; [lra|].
    apply detections_bounded. intros fr [x y] E.
    apply (offsets_in_unit_square fr x y (Hwp fr) E).
Qed.

(** X13.  Of three or more eyes found in the face, the two with the
    smallest [x] are the ones used, the smaller [x] as left eye: the
    offsets are those of the eye centre of two detected eyes [l], [r] with
    [x_l <= x_r] and no other detected eye to the left of [r]. *)
Theorem leftmost_two_eyes_used (fr : frame) (face : Detector.rect) :
  Detector.largest_face (detect_faces fr) = Some face ->
  (2 <= length (detect_eyes fr face))%nat ->
  exists l r rest,
    Permutation (detect_eyes fr face) (l :: r :: rest) /\
    (Detector.rect_x l <= Detector.rect_x r)%Z /\
    Forall (fun e => (Detector.rect_x r <= Detector.rect_x e)%Z) rest /\
    Detector.detect_face_position detect_faces detect_eyes frame_shape fr =
    Some (Detector.offset
            (Detector.eye_center (Detector.rect_x face)
               (Detector.rect_x l) (Detector.rect_w l)
               (Detector.rect_x r) (Detector.rect_w r))
            (snd (frame_shape fr)),
          Detector.offset
            (Detector.eye_center (Detector.rect_y face)
               (Detector.rect_y l) (Detector.rect_h l)
               (Detector.rect_y r) (Detector.rect_h r))
            (fst (frame_shape fr))).
Proof.
  intros Hlf Hn.
  destruct (sorted_first_two Detector.rect_x (detect_eyes fr face) face Hn)
    as (rest & _ & Hp & Hle & Hrest).
  exists (nth 0 (Detector.sorted Detector.rect_x (detect_eyes fr face)) face),
         (nth 1 (Detector.sorted Detector.rect_x (detect_eyes fr face)) face),
         rest.
  split; [exact Hp|]. split; [exact Hle|]. split; [exact Hrest|].
  unfold Detector.detect_face_position. rewrite Hlf.
  destruct (frame_shape fr) as [frame_h frame_w].
  apply Nat.leb_le in Hn. rewrite Hn. reflexivity.
Qed.

End DetectorProperties.

(** X14.  With exactly two eyes found in the face used, the result does
    not depend on the order in which the eye detector lists them, ties in
    [x] included. *)
Theorem two_eyes_order_irrelevant
        (frame : Type) (detect_faces : frame -> list Detector.rect)
        (detect_eyes detect_eyes' : frame -> Detector.rect -> list Detector.rect)
        (frame_shape : frame -> Z * Z) (fr : frame) (e1 e2 : Detector.rect) :
  (forall face, Detector.largest_face (detect_faces fr) = Some face ->
                detect_eyes fr face = [e1; e2] /\
                detect_eyes' fr face = [e2; e1]) ->
  Detector.detect_face_position detect_faces detect_eyes frame_shape fr =
  Detector.detect_face_position detect_faces detect_eyes' frame_shape fr.
Proof.
  intros H. unfold Detector.detect_face_position.
  destruct (Detector.largest_face (detect_faces fr)) as [face|]; [|reflexivity].
  destruct (H face eq_refl) as [-> ->].
  destruct (frame_shape fr) as [frame_h frame_w].
  unfold Detector.sorted. simpl.
  destruct (Z.leb_spec (Detector.rect_x e1) (Detector.rect_x e2));
    destruct (Z.leb_spec (Detector.rect_x e2) (Detector.rect_x e1));
    simpl; try reflexivity; try lia.
  f_equal. f_equal; f_equal; apply eye_center_sym.
Qed.

Lemma largest_of_worked_faces : Detector.largest_face (faces_of tt) = Some big_face.
Proof. reflexivity. Qed.

Lemma two_eyes_order_irrelevant_witness :
  Detector.detect_face_position faces_of eyes_of vga tt =
  Detector.detect_face_position faces_of eyes_swapped vga tt.
Proof.
  apply (two_eyes_order_irrelevant blank faces_of eyes_of eyes_swapped vga tt
           eye_a eye_b).
  intros face H. rewrite largest_of_worked_faces in H. injection H as <-.
  split; reflexivity.
Defined.

Lemma worked_frame_well_placed : Detector.well_placed faces_of eyes_of vga tt.
Proof.
  unfold Detector.well_placed, vga, faces_of.
  split; [lia|]. split; [lia|]. split.
  - repeat constructor; simpl; lia.
  - intros face [<-|[<-|[]]]; unfold eyes_of; simpl.
    + constructor.
    + repeat constructor; simpl; lia.
Qed.

Lemma detected_offset_in_unit_square_witness :
  Detector.detect_face_position faces_of eyes_of vga tt = None <->
  faces_of tt = [].
Proof.
  apply (proj1 (detected_offset_in_unit_square blank faces_of eyes_of vga tt
                  worked_frame_well_placed)).
Defined.

Lemma tracked_direction_in_unit_square_witness :
  let d := get_direction
             (core (run flip_blank
                      (Detector.detect_face_position faces_of eyes_of vga)
                      [Loop None; Loop (Some tt); Loop None; Cleanup] world0)) in
  -1 <= fst d <= 1 /\ -1 <= snd d <= 1.
Proof.
  apply (tracked_direction_in_unit_square blank faces_of eyes_of vga flip_blank
           [Loop None; Loop (Some tt); Loop None; Cleanup]).
  intros []. exact worked_frame_well_placed.
Defined.

Lemma leftmost_two_eyes_used_witness :
  exists l r rest,
    Permutation (eyes_of tt big_face) (l :: r :: rest) /\
    (Detector.rect_x l <= Detector.rect_x r)%Z.
Proof.
  destruct (leftmost_two_eyes_used blank faces_of eyes_of vga tt big_face
              largest_of_worked_faces ltac:(simpl; lia))
    as (l & r & rest & Hp & Hle & _).
  exists l, r, rest. split; [exact Hp | exact Hle].
Defined.

(** * Properties of the client script *)

(** ** The pupil stays inside the eye *)



(** ** The two eyes *)

Lemma play_snoc (events : list Client.event) (e : Client.event) (c : Client.client) :
  Client.play (events ++ [e]) c = Client.handle (Client.play events c) e.
Proof. unfold Client.play. rewrite fold_left_app. reflexivity. Qed.

(** X16.  From the start of the page on, after any sequence of animation
    frames and answers of the server, both eyes hold the same smoothed
    direction; the left and right pupils are therefore drawn from the same
    [(dx, dy)] and differ only by the parallax of [-0.08] and [+0.08]. *)
Theorem eyes_move_together (events : list Client.event) :
  let c := Client.play events Client.start in
  Client.currentLeftDx c = Client.currentRightDx c /\
  Client.currentLeftDy c = Client.currentRightDy c.
Proof.
  cbv zeta. induction events as [|e events IH] using rev_ind.
  - split; reflexivity.
  - rewrite play_snoc. destruct IH as [Hx Hy].
    destruct e as [|data]; simpl; [rewrite Hx, Hy|]; auto.
Qed.

Lemma answers_snoc (events : list Client.event) (e : Client.event) :
  Client.answers (events ++ [e]) =
  Client.answers events ++ match e with Client.Answer d => [d] | Client.Frame => [] end.
Proof. unfold Client.answers. rewrite flat_map_app. simpl. rewrite app_nil_r. reflexivity. Qed.

(** X17.  If every answer of the server lies in [[lo, hi]] on both axes,
    with [lo <= 0 <= hi], then after any sequence of frames and answers the
    targets and the smoothed directions of both eyes lie in [[lo, hi]]:
    the client interpolation never overshoots what the server sent. *)
Theorem client_direction_in_interval (lo hi : R) (events : list Client.event) :
  lo <= 0 <= hi ->
  Forall (fun d => lo <= fst d <= hi /\ lo <= snd d <= hi) (Client.answers events) ->
  let c := Client.play events Client.start in
  lo <= Client.targetDx c <= hi /\ lo <= Client.targetDy c <= hi /\
  lo <= Client.currentLeftDx c <= hi /\ lo <= Client.currentLeftDy c <= hi /\
  lo <= Client.currentRightDx c <= hi /\ lo <= Client.currentRightDy c <= hi.
Proof.
  intros H0. cbv zeta.
  induction events as [|e events IH] using rev_ind; intros HF.
  - simpl. repeat split; lra.
  - rewrite answers_snoc in HF. apply Forall_app in HF. destruct HF as [HF He].
    specialize (IH HF). rewrite play_snoc.
    destruct IH as (Tx & Ty & Lx & Ly & Rx & Ry).
    destruct e as [|data]; simpl; unfold Client.clientSmoothness.
    + repeat split; lra.
    + inversion He as [|? ? [Dx Dy] _]; subst. repeat split; lra.
Qed.

Lemma client_direction_in_interval_witness :
  -1 <= Client.currentLeftDx (Client.play session Client.start) <= 1.
Proof.
  apply (client_direction_in_interval (-1) 1 session ltac:(lra)).
  unfold session; simpl. repeat constructor; simpl; lra.
Defined.

